(** * vcluster: name translation, metadata reset, reference extraction,
      redirect table and service-CIDR probe

    A shallow embedding of
    - [pkg/util/translate] ([SafeConcatName], [UniqueSlice], [IsManaged],
      [PhysicalName], [ResetObjectMetadata], [initMetadata], [SetupMetadata]),
    - [pkg/controllers/resources/pods/util.go] ([SecretNamesFromPod] and its
      per-container helpers),
    - [pkg/server] (the [redirectResources] table of [NewServer]),
    - [cmd/vclusterctl/cmd/create.go] ([getReleaseValues]).

    Go strings are byte strings, so they are modelled by [string], whose
    characters are 8-bit [ascii] values; [len] is [String.length] and the
    slice [s[i:j]] is [substring i (j - i) s].  Go maps are [gmap]s, a nil
    map or pointer is [None]. *)

From Stdlib Require Import ZArith Ascii String List Lia.
From stdpp Require Import base option list gmap strings.

Local Open Scope string_scope.
Local Open Scope list_scope.

(** ** Byte-level helpers of the Go runtime and standard library *)

Module GoString.

(** [[]byte(s)]: the bytes of a string, as integers in [0, 256). *)
Definition bytes (s : string) : list Z :=
  map (fun c => Z.of_N (N_of_ascii c)) (list_ascii_of_string s).

(** [strings.Join(parts, sep)]. *)
Fixpoint Join (parts : list string) (sep : string) : string :=
  match parts with
  | [] => ""
  | [p] => p
  | p :: rest => p +:+ sep +:+ Join rest sep
  end.

(** [strings.HasPrefix(s, prefix)]. *)
Fixpoint HasPrefix (s prefix : string) {struct prefix} : bool :=
  match prefix, s with
  | EmptyString, _ => true
  | String _ _, EmptyString => false
  | String p prefix', String c s' =>
      if Ascii.eqb p c then HasPrefix s' prefix' else false
  end.

(** [strings.Index(s, substr)]: the byte offset of the first occurrence
    of [substr] in [s]; Go's [-1] is [None]. *)
Fixpoint Index (s substr : string) : option nat :=
  if HasPrefix s substr then Some 0
  else match s with
       | EmptyString => None
       | String _ s' => S <$> Index s' substr
       end.

(** [s[i:]]. *)
Fixpoint from (i : nat) (s : string) : string :=
  match i, s with
  | 0, _ => s
  | S _, EmptyString => EmptyString
  | S i', String _ s' => from i' s'
  end.

(** [s[i:j]] for [i <= j <= len(s)]. *)
Definition slice (i j : nat) (s : string) : string := substring i (j - i) s.

End GoString.

(** ** [crypto/sha256] and [encoding/hex]

    Both are Go standard-library packages; [Sum256] follows FIPS 180-4 on
    32-bit words carried by [Z] with the wrap-around written out. *)

Module sha256.
Local Open Scope Z_scope.

Definition wrap32 (x : Z) : Z := x mod 2 ^ 32.
Definition add32 (x y : Z) : Z := wrap32 (x + y).
Definition not32 (x : Z) : Z := Z.lxor x (2 ^ 32 - 1).
Definition rotr (n x : Z) : Z :=
  wrap32 (Z.lor (Z.shiftr x n) (Z.shiftl x (32 - n))).

Definition Ch (x y z : Z) : Z := Z.lxor (Z.land x y) (Z.land (not32 x) z).
Definition Maj (x y z : Z) : Z :=
  Z.lxor (Z.lxor (Z.land x y) (Z.land x z)) (Z.land y z).
Definition bsig0 (x : Z) : Z := Z.lxor (Z.lxor (rotr 2 x) (rotr 13 x)) (rotr 22 x).
Definition bsig1 (x : Z) : Z := Z.lxor (Z.lxor (rotr 6 x) (rotr 11 x)) (rotr 25 x).
Definition ssig0 (x : Z) : Z := Z.lxor (Z.lxor (rotr 7 x) (rotr 18 x)) (Z.shiftr x 3).
Definition ssig1 (x : Z) : Z := Z.lxor (Z.lxor (rotr 17 x) (rotr 19 x)) (Z.shiftr x 10).

(** Round constants [_K] (decimal). *)
Definition _K : list Z :=
  [ 1116352408; 1899447441; 3049323471; 3921009573; 961987163; 1508970993;
    2453635748; 2870763221; 3624381080; 310598401; 607225278; 1426881987;
    1925078388; 2162078206; 2614888103; 3248222580; 3835390401; 4022224774;
    264347078; 604807628; 770255983; 1249150122; 1555081692; 1996064986;
    2554220882; 2821834349; 2952996808; 3210313671; 3336571891; 3584528711;
    113926993; 338241895; 666307205; 773529912; 1294757372; 1396182291;
    1695183700; 1986661051; 2177026350; 2456956037; 2730485921; 2820302411;
    3259730800; 3345764771; 3516065817; 3600352804; 4094571909; 275423344;
    430227734; 506948616; 659060556; 883997877; 958139571; 1322822218;
    1537002063; 1747873779; 1955562222; 2024104815; 2227730452; 2361852424;
    2428436474; 2756734187; 3204031479; 3329325298 ].

(** The eight chaining words [h0 .. h7]. *)
Record digest := Digest {
  h0 : Z; h1 : Z; h2 : Z; h3 : Z; h4 : Z; h5 : Z; h6 : Z; h7 : Z }.

Definition init : digest :=
  Digest 1779033703 3144134277 1013904242 2773480762
         1359893119 2600822924 528734635 1541459225.

(** Big-endian word of four bytes, and back. *)
Definition be32 (b : list Z) : Z :=
  fold_left (fun acc x => acc * 256 + x) b 0.
Definition bytes_of_word (w : Z) : list Z :=
  [ Z.shiftr w 24 mod 256; Z.shiftr w 16 mod 256; Z.shiftr w 8 mod 256; w mod 256 ].

(** The first sixteen schedule words of a 64-byte chunk. *)
Fixpoint words (n : nat) (p : list Z) : list Z :=
  match n with
  | O => []
  | S n' => be32 (firstn 4 p) :: words n' (skipn 4 p)
  end.

(** Schedule words 16..63, appended one at a time. *)
Fixpoint extend (n : nat) (w : list Z) : list Z :=
  match n with
  | O => w
  | S n' =>
      let i := length w in
      let t1 := ssig1 (nth (i - 2) w 0) in
      let t2 := ssig0 (nth (i - 15) w 0) in
      extend n' (w ++ [add32 (add32 (add32 t1 (nth (i - 7) w 0)) t2)
                             (nth (i - 16) w 0)])
  end.

Definition round (d : digest) (kw : Z * Z) : digest :=
  let '(Digest a b c d' e f g h) := d in
  let t1 := add32 (add32 (add32 (add32 h (bsig1 e)) (Ch e f g)) (fst kw)) (snd kw) in
  let t2 := add32 (bsig0 a) (Maj a b c) in
  Digest (add32 t1 t2) a b c (add32 d' t1) e f g.

(** One iteration of the outer loop of [block]. *)
Definition chunk (d : digest) (p : list Z) : digest :=
  let w := extend 48 (words 16 p) in
  let r := fold_left round (combine _K w) d in
  Digest (add32 (h0 d) (h0 r)) (add32 (h1 d) (h1 r))
         (add32 (h2 d) (h2 r)) (add32 (h3 d) (h3 r))
         (add32 (h4 d) (h4 r)) (add32 (h5 d) (h5 r))
         (add32 (h6 d) (h6 r)) (add32 (h7 d) (h7 r)).

Fixpoint block (n : nat) (d : digest) (p : list Z) : digest :=
  match n with
  | O => d
  | S n' => block n' (chunk d (firstn 64 p)) (skipn 64 p)
  end.

(** Padding: the byte 0x80, zeros up to 56 modulo 64, and the bit length
    as a 64-bit big-endian integer. *)
Definition pad (msg : list Z) : list Z :=
  let len := Z.of_nat (length msg) in
  let zeros := Z.to_nat ((55 - len) mod 64) in
  let bits := len * 8 in
  msg ++ [128] ++ repeat 0 zeros
      ++ map (fun k => Z.shiftr bits (8 * k) mod 256) [7; 6; 5; 4; 3; 2; 1; 0].

(** [sha256.Sum256(data)]: the 32 bytes of the checksum. *)
Definition Sum256 (data : list Z) : list Z :=
  let p := pad data in
  let d := block (length p / 64) init p in
  bytes_of_word (h0 d) ++ bytes_of_word (h1 d) ++ bytes_of_word (h2 d)
    ++ bytes_of_word (h3 d) ++ bytes_of_word (h4 d) ++ bytes_of_word (h5 d)
    ++ bytes_of_word (h6 d) ++ bytes_of_word (h7 d).

End sha256.

Module hex.

Definition hextable : string := "0123456789abcdef".

Definition digit (n : Z) : ascii :=
  match String.get (Z.to_nat n) hextable with
  | Some c => c
  | None => "0"%char
  end.

(** [hex.EncodeToString(src)]: two lower-case digits per byte. *)
Fixpoint EncodeToString (src : list Z) : string :=
  match src with
  | [] => ""
  | b :: rest =>
      String (digit (Z.shiftr b 4)) (String (digit (Z.land b 15)) (EncodeToString rest))
  end.

End hex.

(** ** Package [translate]: process-wide variables *)

(** [appsv1.StatefulSet], as far as [initMetadata] reads it. *)
Record StatefulSet := mkStatefulSet {
  sts_Name : string;
  sts_UID : string }.

(** The package-level [var]s [MarkerLabel], [Suffix] and
    [OwningStatefulSet]; they are assigned at start-up, so every function
    that reads them takes the current values. *)
Record Globals := mkGlobals {
  MarkerLabel : string;
  Suffix : string;
  OwningStatefulSet : option StatefulSet }.

(** The values of the initialisers in the source. *)
Definition initial_globals : Globals :=
  {| MarkerLabel := "vcluster.loft.sh/managed-by";
     Suffix := "suffix";
     OwningStatefulSet := None |}.

(** ** Name translation *)

Definition SafeConcatName (name : list string) : string :=
  let fullPath := GoString.Join name "-" in
  if Nat.ltb 63 (String.length fullPath) then
    let digest := sha256.Sum256 (GoString.bytes fullPath) in
    GoString.slice 0 52 fullPath +:+ "-"
      +:+ GoString.slice 0 10 (hex.EncodeToString digest)
  else fullPath.

Definition PhysicalName (g : Globals) (name namespace : string) : string :=
  SafeConcatName [name; "x"; namespace; "x"; Suffix g].

(** ** Object metadata ([metav1.ObjectMeta] behind [metav1.Object]) *)

(** [metav1.Time]: seconds since Go's zero time, so [metav1.Time{}] is 0. *)
Definition metav1_Time := Z.

Record OwnerReference := mkOwnerReference {
  or_APIVersion : string;
  or_Kind : string;
  or_Name : string;
  or_UID : string;
  or_Controller : option bool;
  or_BlockOwnerDeletion : option bool }.

Record ManagedFieldsEntry := mkManagedFieldsEntry {
  mf_Manager : string;
  mf_Operation : string;
  mf_APIVersion : string }.

(** Slices and maps that the setters can reset to [nil] are options. *)
Record ObjectMeta := mkObjectMeta {
  Name : string;
  GenerateName : string;
  Namespace : string;
  SelfLink : string;
  UID : string;
  ResourceVersion : string;
  Generation : Z;
  CreationTimestamp : metav1_Time;
  DeletionTimestamp : option metav1_Time;
  DeletionGracePeriodSeconds : option Z;
  Labels : option (gmap string string);
  Annotations : option (gmap string string);
  OwnerReferences : option (list OwnerReference);
  Finalizers : option (list string);
  ClusterName : string;
  ManagedFields : option (list ManagedFieldsEntry) }.

(** The setters of [metav1.Object]; each writes one field in place. *)
Section Setters.
Variable m : ObjectMeta.

Definition SetName (v : string) : ObjectMeta :=
  mkObjectMeta v (GenerateName m) (Namespace m) (SelfLink m) (UID m)
    (ResourceVersion m) (Generation m) (CreationTimestamp m)
    (DeletionTimestamp m) (DeletionGracePeriodSeconds m) (Labels m)
    (Annotations m) (OwnerReferences m) (Finalizers m) (ClusterName m)
    (ManagedFields m).
Definition SetGenerateName (v : string) : ObjectMeta :=
  mkObjectMeta (Name m) v (Namespace m) (SelfLink m) (UID m)
    (ResourceVersion m) (Generation m) (CreationTimestamp m)
    (DeletionTimestamp m) (DeletionGracePeriodSeconds m) (Labels m)
    (Annotations m) (OwnerReferences m) (Finalizers m) (ClusterName m)
    (ManagedFields m).
Definition SetNamespace (v : string) : ObjectMeta :=
  mkObjectMeta (Name m) (GenerateName m) v (SelfLink m) (UID m)
    (ResourceVersion m) (Generation m) (CreationTimestamp m)
    (DeletionTimestamp m) (DeletionGracePeriodSeconds m) (Labels m)
    (Annotations m) (OwnerReferences m) (Finalizers m) (ClusterName m)
    (ManagedFields m).
Definition SetSelfLink (v : string) : ObjectMeta :=
  mkObjectMeta (Name m) (GenerateName m) (Namespace m) v (UID m)
    (ResourceVersion m) (Generation m) (CreationTimestamp m)
    (DeletionTimestamp m) (DeletionGracePeriodSeconds m) (Labels m)
    (Annotations m) (OwnerReferences m) (Finalizers m) (ClusterName m)
    (ManagedFields m).
Definition SetUID (v : string) : ObjectMeta :=
  mkObjectMeta (Name m) (GenerateName m) (Namespace m) (SelfLink m) v
    (ResourceVersion m) (Generation m) (CreationTimestamp m)
    (DeletionTimestamp m) (DeletionGracePeriodSeconds m) (Labels m)
    (Annotations m) (OwnerReferences m) (Finalizers m) (ClusterName m)
    (ManagedFields m).
Definition SetResourceVersion (v : string) : ObjectMeta :=
  mkObjectMeta (Name m) (GenerateName m) (Namespace m) (SelfLink m) (UID m)
    v (Generation m) (CreationTimestamp m)
    (DeletionTimestamp m) (DeletionGracePeriodSeconds m) (Labels m)
    (Annotations m) (OwnerReferences m) (Finalizers m) (ClusterName m)
    (ManagedFields m).
Definition SetGeneration (v : Z) : ObjectMeta :=
  mkObjectMeta (Name m) (GenerateName m) (Namespace m) (SelfLink m) (UID m)
    (ResourceVersion m) v (CreationTimestamp m)
    (DeletionTimestamp m) (DeletionGracePeriodSeconds m) (Labels m)
    (Annotations m) (OwnerReferences m) (Finalizers m) (ClusterName m)
    (ManagedFields m).
Definition SetCreationTimestamp (v : metav1_Time) : ObjectMeta :=
  mkObjectMeta (Name m) (GenerateName m) (Namespace m) (SelfLink m) (UID m)
    (ResourceVersion m) (Generation m) v
    (DeletionTimestamp m) (DeletionGracePeriodSeconds m) (Labels m)
    (Annotations m) (OwnerReferences m) (Finalizers m) (ClusterName m)
    (ManagedFields m).
Definition SetDeletionTimestamp (v : option metav1_Time) : ObjectMeta :=
  mkObjectMeta (Name m) (GenerateName m) (Namespace m) (SelfLink m) (UID m)
    (ResourceVersion m) (Generation m) (CreationTimestamp m)
    v (DeletionGracePeriodSeconds m) (Labels m)
    (Annotations m) (OwnerReferences m) (Finalizers m) (ClusterName m)
    (ManagedFields m).
Definition SetDeletionGracePeriodSeconds (v : option Z) : ObjectMeta :=
  mkObjectMeta (Name m) (GenerateName m) (Namespace m) (SelfLink m) (UID m)
    (ResourceVersion m) (Generation m) (CreationTimestamp m)
    (DeletionTimestamp m) v (Labels m)
    (Annotations m) (OwnerReferences m) (Finalizers m) (ClusterName m)
    (ManagedFields m).
Definition SetLabels (v : option (gmap string string)) : ObjectMeta :=
  mkObjectMeta (Name m) (GenerateName m) (Namespace m) (SelfLink m) (UID m)
    (ResourceVersion m) (Generation m) (CreationTimestamp m)
    (DeletionTimestamp m) (DeletionGracePeriodSeconds m) v
    (Annotations m) (OwnerReferences m) (Finalizers m) (ClusterName m)
    (ManagedFields m).
Definition SetOwnerReferences (v : option (list OwnerReference)) : ObjectMeta :=
  mkObjectMeta (Name m) (GenerateName m) (Namespace m) (SelfLink m) (UID m)
    (ResourceVersion m) (Generation m) (CreationTimestamp m)
    (DeletionTimestamp m) (DeletionGracePeriodSeconds m) (Labels m)
    (Annotations m) v (Finalizers m) (ClusterName m)
    (ManagedFields m).
Definition SetFinalizers (v : option (list string)) : ObjectMeta :=
  mkObjectMeta (Name m) (GenerateName m) (Namespace m) (SelfLink m) (UID m)
    (ResourceVersion m) (Generation m) (CreationTimestamp m)
    (DeletionTimestamp m) (DeletionGracePeriodSeconds m) (Labels m)
    (Annotations m) (OwnerReferences m) v (ClusterName m)
    (ManagedFields m).
Definition SetClusterName (v : string) : ObjectMeta :=
  mkObjectMeta (Name m) (GenerateName m) (Namespace m) (SelfLink m) (UID m)
    (ResourceVersion m) (Generation m) (CreationTimestamp m)
    (DeletionTimestamp m) (DeletionGracePeriodSeconds m) (Labels m)
    (Annotations m) (OwnerReferences m) (Finalizers m) v
    (ManagedFields m).
Definition SetManagedFields (v : option (list ManagedFieldsEntry)) : ObjectMeta :=
  mkObjectMeta (Name m) (GenerateName m) (Namespace m) (SelfLink m) (UID m)
    (ResourceVersion m) (Generation m) (CreationTimestamp m)
    (DeletionTimestamp m) (DeletionGracePeriodSeconds m) (Labels m)
    (Annotations m) (OwnerReferences m) (Finalizers m) (ClusterName m)
    v.
End Setters.

(** [ResetObjectMetadata]: the thirteen setter calls, in source order, on
    the one object [obj] points to. *)
Definition ResetObjectMetadata (obj : ObjectMeta) : ObjectMeta :=
  let obj := SetGenerateName obj "" in
  let obj := SetSelfLink obj "" in
  let obj := SetUID obj "" in
  let obj := SetResourceVersion obj "" in
  let obj := SetGeneration obj 0%Z in
  let obj := SetCreationTimestamp obj 0%Z in
  let obj := SetDeletionTimestamp obj None in
  let obj := SetDeletionGracePeriodSeconds obj None in
  let obj := SetOwnerReferences obj None in
  let obj := SetFinalizers obj None in
  let obj := SetClusterName obj "" in
  let obj := SetManagedFields obj None in
  SetLabels obj None.

(** ** [runtime.Object] and [meta.Accessor] *)

Definition error := string.

Inductive result (A : Type) : Type :=
| Ok (a : A)
| Err (e : error).
Arguments Ok {A} a.
Arguments Err {A} e.

(** A [runtime.Object] either implements [metav1.Object] (every API type
    with an embedded [ObjectMeta]) or it does not; [B] is the rest of the
    object (spec, status, data). *)
Inductive RuntimeObject (B : Type) : Type :=
| WithMeta (meta : ObjectMeta) (body : B)
| NoMeta (body : B).
Arguments WithMeta {B} meta body.
Arguments NoMeta {B} body.

Definition errNotObject : error :=
  "object does not implement the Object interfaces".

(** [meta.Accessor(obj)]. *)
Definition Accessor {B} (obj : RuntimeObject B) : result ObjectMeta :=
  match obj with
  | WithMeta m _ => Ok m
  | NoMeta _ => Err errNotObject
  end.

(** Reading a Go map: a missing key, or a nil map, yields the zero value. *)
Definition mapIndex (m : option (gmap string string)) (k : string) : string :=
  match m with
  | Some m => default "" (m !! k)
  | None => ""
  end.

Definition IsManaged {B} (g : Globals) (obj : RuntimeObject B) : bool :=
  match Accessor obj with
  | Err _ => false
  | Ok meta =>
      match Labels meta with
      | None => false
      | Some _ => bool_decide (mapIndex (Labels meta) (MarkerLabel g) = Suffix g)
      end
  end.


(** [schema.GroupVersion] and its [String] method. *)
Record GroupVersion := mkGroupVersion { gv_Group : string; gv_Version : string }.

Definition GroupVersion_String (gv : GroupVersion) : string :=
  if bool_decide (gv_Group gv = "") then gv_Version gv
  else gv_Group gv +:+ "/" +:+ gv_Version gv.

Definition appsv1_SchemeGroupVersion : GroupVersion := mkGroupVersion "apps" "v1".
Definition corev1_SchemeGroupVersion : GroupVersion := mkGroupVersion "" "v1".

(** [initMetadata] works on the metadata behind [target]; the body of the
    object is not touched. *)
Definition initMetadata {B} (g : Globals) (targetNamespace : string)
    (target : RuntimeObject B) : result (RuntimeObject B) :=
  match target with
  | NoMeta _ => Err errNotObject
  | WithMeta m body =>
      let name := Name m in
      let namespace := Namespace m in
      let m := ResetObjectMetadata m in
      let m := SetName m (PhysicalName g name namespace) in
      let m := SetNamespace m targetNamespace in
      let labels := match Labels m with
                    | None => ∅
                    | Some labels => labels
                    end in
      let labels := <[MarkerLabel g := Suffix g]> labels in
      let m := SetLabels m (Some labels) in
      let m := match OwningStatefulSet g with
               | Some sts =>
                   SetOwnerReferences m (Some
                     [ {| or_APIVersion := GroupVersion_String appsv1_SchemeGroupVersion;
                          or_Kind := "StatefulSet";
                          or_Name := sts_Name sts;
                          or_UID := sts_UID sts;
                          or_Controller := None;
                          or_BlockOwnerDeletion := None |} ])
               | None => m
               end in
      Ok (WithMeta m body)
  end.

(** [SetupMetadata]: [DeepCopyObject] yields an equal, unshared object, so
    the caller's [obj] is left as it was and the copy is the value
    [initMetadata] transforms. *)
Definition SetupMetadata {B} (g : Globals) (targetNamespace : string)
    (obj : RuntimeObject B) : result (RuntimeObject B) :=
  let target := obj in
  match initMetadata g targetNamespace target with
  | Err err => Err err
  | Ok target => Ok target
  end.

(** ** [UniqueSlice] *)

(** The loop state of [UniqueSlice]: the map [keys] and the slice [list] (here [out]). *)
Definition UniqueSlice_body (st : gmap string bool * list string) (entry : string)
    : gmap string bool * list string :=
  let '(keys, out) := st in
  if bool_decide (entry = "") then (keys, out)
  else match keys !! entry with
       | None => (<[entry := true]> keys, out ++ [entry])
       | Some _ => (keys, out)
       end.

Definition UniqueSlice (stringSlice : list string) : list string :=
  snd (fold_left UniqueSlice_body stringSlice (∅, [])).

(** ** Pods ([corev1.Pod], as far as reference extraction reads it) *)

Record LocalObjectReference := mkLocalObjectReference { lor_Name : string }.

Record SecretKeySelector := mkSecretKeySelector {
  sks_Name : string;
  sks_Key : string }.

Record ConfigMapKeySelector := mkConfigMapKeySelector {
  cks_Name : string;
  cks_Key : string }.

Record EnvVarSource := mkEnvVarSource {
  ConfigMapKeyRef : option ConfigMapKeySelector;
  SecretKeyRef : option SecretKeySelector }.

Record EnvVar := mkEnvVar {
  ev_Name : string;
  ev_Value : string;
  ValueFrom : option EnvVarSource }.

Record SecretEnvSource := mkSecretEnvSource { ses_Name : string }.
Record ConfigMapEnvSource := mkConfigMapEnvSource { ces_Name : string }.

Record EnvFromSource := mkEnvFromSource {
  ef_Prefix : string;
  ConfigMapRef : option ConfigMapEnvSource;
  SecretRef : option SecretEnvSource }.

Record Container := mkContainer {
  c_Name : string;
  Env : list EnvVar;
  EnvFrom : list EnvFromSource }.

Record EphemeralContainer := mkEphemeralContainer {
  ec_Name : string;
  ec_Env : list EnvVar;
  ec_EnvFrom : list EnvFromSource;
  ec_TargetContainerName : string }.

Record SecretVolumeSource := mkSecretVolumeSource { SecretName : string }.
Record ConfigMapVolumeSource := mkConfigMapVolumeSource { cmv_Name : string }.

Record Volume := mkVolume {
  v_Name : string;
  Secret : option SecretVolumeSource;
  ConfigMap : option ConfigMapVolumeSource }.

Record PodSpec := mkPodSpec {
  Volumes : list Volume;
  InitContainers : list Container;
  Containers : list Container;
  EphemeralContainers : list EphemeralContainer;
  ImagePullSecrets : list LocalObjectReference }.

Record Pod := mkPod {
  pod_ObjectMeta : ObjectMeta;
  Spec : PodSpec }.

(** The two loop bodies shared by the per-container extractors. *)
Definition secretFromEnv (namespace : string) (secrets : list string) (env : EnvVar)
    : list string :=
  match ValueFrom env with
  | Some valueFrom =>
      match SecretKeyRef valueFrom with
      | Some ref =>
          if bool_decide (sks_Name ref ≠ "")
          then secrets ++ [namespace +:+ "/" +:+ sks_Name ref]
          else secrets
      | None => secrets
      end
  | None => secrets
  end.

Definition secretFromEnvFrom (namespace : string) (secrets : list string)
    (from : EnvFromSource) : list string :=
  match SecretRef from with
  | Some ref =>
      if bool_decide (ses_Name ref ≠ "")
      then secrets ++ [namespace +:+ "/" +:+ ses_Name ref]
      else secrets
  | None => secrets
  end.

Definition SecretNamesFromContainer (namespace : string) (container : Container)
    : list string :=
  let secrets := [] in
  let secrets := fold_left (secretFromEnv namespace) (Env container) secrets in
  let secrets := fold_left (secretFromEnvFrom namespace) (EnvFrom container) secrets in
  secrets.

Definition SecretNamesFromEphemeralContainer (namespace : string)
    (container : EphemeralContainer) : list string :=
  let secrets := [] in
  let secrets := fold_left (secretFromEnv namespace) (ec_Env container) secrets in
  let secrets := fold_left (secretFromEnvFrom namespace) (ec_EnvFrom container) secrets in
  secrets.

Definition SecretNamesFromPod (pod : Pod) : list string :=
  let ns := Namespace (pod_ObjectMeta pod) in
  let secrets := [] in
  let secrets :=
    fold_left (fun secrets c => secrets ++ SecretNamesFromContainer ns c)
              (Containers (Spec pod)) secrets in
  let secrets :=
    fold_left (fun secrets c => secrets ++ SecretNamesFromContainer ns c)
              (InitContainers (Spec pod)) secrets in
  let secrets :=
    fold_left (fun secrets c => secrets ++ SecretNamesFromEphemeralContainer ns c)
              (EphemeralContainers (Spec pod)) secrets in
  let secrets :=
    fold_left (fun secrets ref => secrets ++ [ns +:+ "/" +:+ lor_Name ref])
              (ImagePullSecrets (Spec pod)) secrets in
  let secrets :=
    fold_left (fun secrets vol =>
                 match Secret vol with
                 | Some src => secrets ++ [ns +:+ "/" +:+ SecretName src]
                 | None => secrets
                 end)
              (Volumes (Spec pod)) secrets in
  UniqueSlice secrets.

(** ** The redirect table of the proxy server *)

Record GroupVersionResource := mkGroupVersionResource {
  gvr_Group : string;
  gvr_Version : string;
  gvr_Resource : string }.

(** [gv.WithResource(resource)]. *)
Definition WithResource (gv : GroupVersion) (resource : string) : GroupVersionResource :=
  mkGroupVersionResource (gv_Group gv) (gv_Version gv) resource.

(** [delegatingauthorizer.GroupVersionResourceVerb]. *)
Record GroupVersionResourceVerb := mkGroupVersionResourceVerb {
  gvrv_GroupVersionResource : GroupVersionResource;
  Verb : string;
  SubResource : string }.

(** [Server], without the manager and the mux. *)
Record Server := mkServer {
  redirectResources : list GroupVersionResourceVerb;
  requestHeaderCaFile : string;
  clientCaFile : string }.

Definition NewServer (requestHeaderCaFile clientCaFile : string) : Server :=
  {| requestHeaderCaFile := requestHeaderCaFile;
     clientCaFile := clientCaFile;
     redirectResources :=
       [ mkGroupVersionResourceVerb (WithResource corev1_SchemeGroupVersion "nodes") "*" "proxy";
         mkGroupVersionResourceVerb (WithResource corev1_SchemeGroupVersion "pods") "*" "portforward";
         mkGroupVersionResourceVerb (WithResource corev1_SchemeGroupVersion "pods") "*" "exec";
         mkGroupVersionResourceVerb (WithResource corev1_SchemeGroupVersion "pods") "*" "attach";
         mkGroupVersionResourceVerb (WithResource corev1_SchemeGroupVersion "pods") "*" "log";
         mkGroupVersionResourceVerb (WithResource corev1_SchemeGroupVersion "pods") "*" "proxy";
         mkGroupVersionResourceVerb (WithResource corev1_SchemeGroupVersion "services") "*" "proxy" ] |}.

(** Whether the table handed to [filters.WithRedirect] lists the pair
    [(resource, subresource)]. *)
Definition listed (s : Server) (resource subresource : string) : bool :=
  existsb (fun e => bool_decide (gvr_Resource (gvrv_GroupVersionResource e) = resource)
                    && bool_decide (SubResource e = subresource))
          (redirectResources s).

(** ** [vcluster create]: the release values *)

Module strconv.
Local Open Scope Z_scope.

Definition quote : string := String (ascii_of_nat 34) EmptyString.

Definition isDigit (c : ascii) : bool :=
  (48 <=? Z.of_nat (nat_of_ascii c)) && (Z.of_nat (nat_of_ascii c) <=? 57).

Fixpoint digits (s : string) (n : Z) : option Z :=
  match s with
  | EmptyString => Some n
  | String ch s' =>
      if isDigit ch then digits s' (n * 10 + (Z.of_nat (nat_of_ascii ch) - 48))
      else None
  end.

(** [NumError.Error()]; the quoting of [s] is the one [strconv.Quote]
    gives for strings of printable ASCII without quotes or backslashes. *)
Definition numError (s reason : string) : error :=
  "strconv.Atoi: parsing " +:+ quote +:+ s +:+ quote +:+ ": " +:+ reason.

(** [strconv.Atoi(s)] with a 64-bit [int]. *)
Definition Atoi (s : string) : result Z :=
  let neg := GoString.HasPrefix s "-" in
  let body := if neg || GoString.HasPrefix s "+" then GoString.from 1 s else s in
  match body with
  | EmptyString => Err (numError s "invalid syntax")
  | _ =>
      match digits body 0 with
      | None => Err (numError s "invalid syntax")
      | Some n =>
          let v := if neg then - n else n in
          if (- 2 ^ 63 <=? v) && (v <=? 2 ^ 63 - 1) then Ok v
          else Err (numError s "value out of range")
      end
  end.
End strconv.

(** [strings.ReplaceAll(s, old, new)] for a non-empty [old] (as at every
    call site): left to right, non-overlapping.  [skip] counts the bytes of
    a match that are still to be dropped. *)
Fixpoint replaceFrom (old new : string) (skip : nat) (s : string) : string :=
  match s with
  | EmptyString => EmptyString
  | String c s' =>
      match skip with
      | S k => replaceFrom old new k s'
      | O =>
          if GoString.HasPrefix s old
          then new +:+ replaceFrom old new (String.length old - 1) s'
          else String c (replaceFrom old new 0 s')
      end
  end.

Definition ReplaceAll (s old new : string) : string := replaceFrom old new 0 s.

Definition newline : string := String (ascii_of_nat 10) EmptyString.

(** A raw string literal, given line by line. *)
Definition raw (lines : list string) : string := GoString.Join lines newline.

Definition VersionMap : gmap string string :=
  list_to_map
    [ ("1.20", "rancher/k3s:v1.20.4-k3s1");
      ("1.19", "rancher/k3s:v1.19.8-k3s1");
      ("1.18", "rancher/k3s:v1.18.16-k3s1");
      ("1.17", "rancher/k3s:v1.17.17-k3s1");
      ("1.16", "rancher/k3s:v1.16.15-k3s1") ].

Definition noDeployValues : string :=
  raw [ "  baseArgs:";
        "    - server";
        "    - --write-kubeconfig=/k3s-config/kube-config.yaml";
        "    - --data-dir=/data";
        "    - --no-deploy=traefik,servicelb,metrics-server,local-storage";
        "    - --disable-network-policy";
        "    - --disable-agent";
        "    - --disable-scheduler";
        "    - --disable-cloud-controller";
        "    - --flannel-backend=none";
        "    - --kube-controller-manager-arg=controllers=*,-nodeipam,-nodelifecycle,-persistentvolume-binder,-attachdetach,-persistentvolume-expander,-cloud-node-lifecycle" ].

Definition baseArgsMap : gmap string string :=
  list_to_map [ ("1.17", noDeployValues); ("1.16", noDeployValues) ].

Definition errorMessageFind : string :=
  "provided IP is not in the valid range. The range of valid IPs is ".

(** [replaceRegEx.ReplaceAllString(s, "")] for the expression [[^0-9]+]:
    every run of bytes other than decimal digits is removed. *)
Fixpoint replaceRegEx_strip (s : string) : string :=
  match s with
  | EmptyString => EmptyString
  | String c s' =>
      if strconv.isDigit c then String c (replaceRegEx_strip s')
      else replaceRegEx_strip s'
  end.

(** [version.Info] and the test service of the probe. *)
Record VersionInfo := mkVersionInfo { Major : string; Minor : string }.

Record ServicePort := mkServicePort { Port : Z }.

Record ServiceSpec := mkServiceSpec {
  Ports : list ServicePort;
  ClusterIP : string }.

Record Service := mkService {
  svc_ObjectMeta : ObjectMeta;
  svc_Spec : ServiceSpec }.

(** The zero value [metav1.ObjectMeta{}]. *)
Definition emptyObjectMeta : ObjectMeta :=
  mkObjectMeta "" "" "" "" "" "" 0%Z 0%Z None None None None None None "" None.

(** [kubernetes.Interface], as far as [getReleaseValues] calls it: the
    answers of the host API server. *)
Record Interface := mkInterface {
  Discovery_ServerVersion : result VersionInfo;
  CoreV1_Services_Create : string -> Service -> result Service }.

Inductive logLevel := InfoLevel | WarnLevel.
Definition logLine : Type := logLevel * string.

Definition fallbackCIDR : string := "10.96.0.0/12".

Definition fallbackNote : string :=
  ", will fallback to 10.96.0.0/12, however this is probably wrong, please make sure the host cluster service cidr and virtual cluster service cidr match".

Definition probeService : Service :=
  {| svc_ObjectMeta := SetGenerateName emptyObjectMeta "test-service-";
     svc_Spec := {| Ports := [ {| Port := 80 |} ]; ClusterIP := "4.4.4.4" |} |}.

Section Create.

(** [strings.TrimSpace] of the Go standard library. *)
Variable TrimSpace : string -> string.

(** Lines 198-220: the image and the version string for the host. *)
Definition selectImage (client : Interface)
    : result (list logLine * string * string) :=
  match Discovery_ServerVersion client with
  | Err err => Err err
  | Ok serverVersion =>
      let serverVersionString :=
        replaceRegEx_strip (Major serverVersion) +:+ "."
          +:+ replaceRegEx_strip (Minor serverVersion) in
      match strconv.Atoi (replaceRegEx_strip (Minor serverVersion)) with
      | Err err => Err err
      | Ok serverMinorInt =>
          match VersionMap !! serverVersionString with
          | Some image => Ok ([], image, serverVersionString)
          | None =>
              if (20 <? serverMinorInt)%Z then
                Ok ([ (InfoLevel, "officially unsupported host server version "
                               +:+ serverVersionString
                               +:+ ", will fallback to virtual cluster version v1.20") ],
                    default "" (VersionMap !! "1.20"), "1.20")
              else
                Ok ([ (InfoLevel, "officially unsupported host server version "
                               +:+ serverVersionString
                               +:+ ", will fallback to virtual cluster version v1.16") ],
                    default "" (VersionMap !! "1.16"), "1.16")
          end
      end
  end.

(** Lines 222-248: the service CIDR, from the answer to the probe. *)
Definition discoverCIDR (probe : result Service) : list logLine * string :=
  match probe with
  | Ok _ => ([ (WarnLevel, "couldn't find cluster service cidr" +:+ fallbackNote) ],
             fallbackCIDR)
  | Err err =>
      let errorMessage := err in
      match GoString.Index errorMessage errorMessageFind with
      | None =>
          ([ (WarnLevel, "couldn't find cluster service cidr (" +:+ errorMessage +:+ ")"
                      +:+ fallbackNote) ],
           fallbackCIDR)
      | Some idx =>
          ([], TrimSpace (GoString.from (idx + String.length errorMessageFind)
                                        errorMessage))
      end
  end.

(** Lines 250-270: the values, from the template. *)
Definition buildValues (image cidr serverVersionString : string)
    (disableIngressSync : bool) : string :=
  let values :=
    raw [ "vcluster:";
          "  image: ##IMAGE##";
          "  extraArgs:";
          "    - --service-cidr=##CIDR##";
          "##BASEARGS##";
          "storage:";
          "  size: 5Gi";
          "" ] in
  let values :=
    if disableIngressSync then
      values +:+ raw [ "";
                       "syncer:";
                       "  extraArgs: [" +:+ strconv.quote
                         +:+ "--disable-sync-resources=ingresses"
                         +:+ strconv.quote +:+ "]" ]
    else values in
  let baseArgs := default "" (baseArgsMap !! serverVersionString) in
  let values := ReplaceAll values "##IMAGE##" image in
  let values := ReplaceAll values "##CIDR##" cidr in
  let values := ReplaceAll values "##BASEARGS##" baseArgs in
  TrimSpace values.

Definition getReleaseValues (client : Interface) (namespace : string)
    (disableIngressSync : bool) : list logLine * result string :=
  match selectImage client with
  | Err err => ([], Err err)
  | Ok (log, image, serverVersionString) =>
      let '(warnings, cidr) :=
        discoverCIDR (CoreV1_Services_Create client namespace probeService) in
      (log ++ warnings,
       Ok (buildValues image cidr serverVersionString disableIngressSync))
  end.

End Create.

(** [strings.TrimSpace] on strings of 7-bit ASCII: the white space is
    tab, line feed, vertical tab, form feed, carriage return and space. *)
Definition asciiSpace (c : ascii) : bool :=
  let n := nat_of_ascii c in
  (Nat.leb 9 n && Nat.leb n 13) || Nat.eqb n 32.

Fixpoint trimLeft (s : string) : string :=
  match s with
  | EmptyString => EmptyString
  | String c s' => if asciiSpace c then trimLeft s' else s
  end.

Fixpoint trimRight (s : string) : string :=
  match s with
  | EmptyString => EmptyString
  | String c s' =>
      match trimRight s' with
      | EmptyString => if asciiSpace c then EmptyString else String c EmptyString
      | t => String c t
      end
  end.

Definition asciiTrimSpace (s : string) : string := trimRight (trimLeft s).

(** ** Predicates the statements below are phrased with *)

(** The object carries the label [MarkerLabel] with the value [Suffix]. *)
Definition carriesMarker {B} (g : Globals) (obj : RuntimeObject B) : Prop :=
  exists m body labels,
    obj = WithMeta m body /\ Labels m = Some labels
    /\ labels !! MarkerLabel g = Some (Suffix g).

(** The object has the label [MarkerLabel], whatever its value. *)
Definition hasMarkerLabel {B} (g : Globals) (obj : RuntimeObject B) : Prop :=
  exists m body labels,
    obj = WithMeta m body /\ Labels m = Some labels
    /\ is_Some (labels !! MarkerLabel g).

(** The owner reference [initMetadata] writes for a stateful set. *)
Definition ownerReferenceTo (sts : StatefulSet) : OwnerReference :=
  {| or_APIVersion := "apps/v1";
     or_Kind := "StatefulSet";
     or_Name := sts_Name sts;
     or_UID := sts_UID sts;
     or_Controller := None;
     or_BlockOwnerDeletion := None |}.

(** The resources and subresources the specification names for the
    redirect filter. *)
Definition specResources : list string := [ "nodes"; "pods"; "services" ].
Definition specSubresources : list string :=
  [ "proxy"; "portforward"; "exec"; "attach"; "log" ].

(** The pairs the table really lists. *)
Definition listedPairs : list (string * string) :=
  [ ("nodes", "proxy"); ("pods", "portforward"); ("pods", "exec");
    ("pods", "attach"); ("pods", "log"); ("pods", "proxy");
    ("services", "proxy") ].

(** The loop invariant: [keys] holds exactly the entries appended so far,
    and none of them twice. *)
Definition UniqueSlice_inv (st : gmap string bool * list string) : Prop :=
  NoDup (snd st) /\ forall x, is_Some (fst st !! x) <-> x ∈ snd st.

(** What the extractors read: the name behind each kind of reference. *)
Definition envSecretRef (env : EnvVar) : option string :=
  match ValueFrom env with
  | Some valueFrom => sks_Name <$> SecretKeyRef valueFrom
  | None => None
  end.

Definition envFromSecretRef (from : EnvFromSource) : option string :=
  ses_Name <$> SecretRef from.

Definition volumeSecretRef (vol : Volume) : option string :=
  SecretName <$> Secret vol.

Definition noSecretRefs (env : list EnvVar) (envFrom : list EnvFromSource) : Prop :=
  Forall (fun e => envSecretRef e = None) env
  /\ Forall (fun f => envFromSecretRef f = None) envFrom.

(** The pod's only secret references are one [secretKeyRef] named [a] in
    the environment of a main container and one secret volume named [b]. *)
Definition onlyEnvAndVolumeRef (a b : string) (pod : Pod) : Prop :=
  exists cs1 c cs2 es1 e es2 vs1 v vs2,
    Containers (Spec pod) = cs1 ++ c :: cs2
    /\ Forall (fun c' => noSecretRefs (Env c') (EnvFrom c')) (cs1 ++ cs2)
    /\ Env c = es1 ++ e :: es2
    /\ envSecretRef e = Some a
    /\ noSecretRefs (es1 ++ es2) (EnvFrom c)
    /\ Forall (fun c' => noSecretRefs (Env c') (EnvFrom c')) (InitContainers (Spec pod))
    /\ Forall (fun c' => noSecretRefs (ec_Env c') (ec_EnvFrom c'))
              (EphemeralContainers (Spec pod))
    /\ ImagePullSecrets (Spec pod) = []
    /\ Volumes (Spec pod) = vs1 ++ v :: vs2
    /\ volumeSecretRef v = Some b
    /\ Forall (fun v' => volumeSecretRef v' = None) (vs1 ++ vs2).

(** The references of a pod in field order, before [UniqueSlice]. *)
Definition secretEntries (pod : Pod) : list string :=
  let ns := Namespace (pod_ObjectMeta pod) in
  flat_map (SecretNamesFromContainer ns) (Containers (Spec pod))
  ++ flat_map (SecretNamesFromContainer ns) (InitContainers (Spec pod))
  ++ flat_map (SecretNamesFromEphemeralContainer ns) (EphemeralContainers (Spec pod))
  ++ map (fun ref => ns +:+ "/" +:+ lor_Name ref) (ImagePullSecrets (Spec pod))
  ++ flat_map (fun vol => match Secret vol with
                          | Some src => [ns +:+ "/" +:+ SecretName src]
                          | None => []
                          end) (Volumes (Spec pod)).

(** The pod of [TestMapping] in [syncer_test.go]. *)
Definition testPod : Pod :=
  {| pod_ObjectMeta := SetNamespace (SetName emptyObjectMeta "test") "test";
     Spec :=
       {| Containers :=
            [ {| c_Name := "test";
                 Env := [ {| ev_Name := "test"; ev_Value := "";
                             ValueFrom :=
                               Some {| ConfigMapKeyRef := None;
                                       SecretKeyRef :=
                                         Some {| sks_Name := "a"; sks_Key := "" |} |} |} ];
                 EnvFrom := [] |} ];
          InitContainers := [];
          EphemeralContainers := [];
          ImagePullSecrets := [];
          Volumes := [ {| v_Name := "test";
                          Secret := Some {| SecretName := "b" |};
                          ConfigMap := None |} ] |} |}.

(** [s] contains [sub]. *)
Definition Contains (s sub : string) : Prop :=
  exists pre post, s = pre +:+ sub +:+ post.

(** [pre] and [post] are what surrounds the first occurrence of [sub]. *)
Definition firstSplit (s sub pre post : string) : Prop :=
  s = pre +:+ sub +:+ post
  /\ forall pre' post', s = pre' +:+ sub +:+ post' ->
                        String.length pre <= String.length pre'.

(** A host at version 1.19+ whose API server refuses the probe and names
    its service range. *)
Definition rangeMessage : string :=
  "spec.clusterIP: Invalid value: 4.4.4.4: provided IP is not in the valid range. The range of valid IPs is 10.43.0.0/16".

Definition hostClient : Interface :=
  {| Discovery_ServerVersion := Ok {| Major := "1"; Minor := "19+" |};
     CoreV1_Services_Create := fun _ svc =>
       if bool_decide (ClusterIP (svc_Spec svc) = "4.4.4.4")
       then Err rangeMessage else Ok svc |}.

(** ** Package [translate]: label maps and key splitting *)

(** [exists(a, k)]. *)
Fixpoint exists_ (a : list string) (k : string) : bool :=
  match a with
  | [] => false
  | i :: a' => if bool_decide (i = k) then true else exists_ a' k
  end.

(** [SetExcept]: the first loop ranges over the map [from], the second
    over the slice [except]; an empty result is returned as nil. *)
Definition SetExcept (from to : option (gmap string string)) (except : list string)
    : option (gmap string string) :=
  let retMap : gmap string string := ∅ in
  let retMap :=
    match from with
    | Some from =>
        map_fold (fun k v retMap =>
                    if exists_ except k then retMap else <[k := v]> retMap)
                 retMap from
    | None => retMap
    end in
  let retMap :=
    match to with
    | Some to =>
        fold_left (fun retMap k =>
                     if bool_decide (default "" (to !! k) ≠ "")
                     then <[k := default "" (to !! k)]> retMap
                     else retMap)
                  except retMap
    | None => retMap
    end in
  if Nat.eqb (size retMap) 0 then None else Some retMap.

(** One loop of [EqualExcept]: every entry of [a] whose key is not
    excepted is matched by [b]; the loop leaves with false at the first
    entry that is not, so the answer is the conjunction over the entries. *)
Definition entriesMatch (a b : option (gmap string string)) (except : list string)
    : bool :=
  match a with
  | None => true
  | Some a =>
      map_fold (fun k v ok =>
                  ok && (exists_ except k
                         || match b with
                            | None => false
                            | Some b => bool_decide (default "" (b !! k) = v)
                            end))
               true a
  end.

Definition EqualExcept (a b : option (gmap string string)) (except : list string)
    : bool :=
  entriesMatch a b except && entriesMatch b a except.

(** [safeIndex(parts, idx)] for an index that is not negative. *)
Definition safeIndex (parts : list string) (idx : nat) : string :=
  if Nat.leb (length parts) idx then "" else nth idx parts "".

(** [strings.SplitN(s, sep, 2)] for a non-empty [sep]: the text before
    the first occurrence of [sep] and the text after it, or [s] alone.
    With an empty [sep] Go cuts after the first UTF-8 sequence instead;
    that path is left out, and the answer is [None]. *)
Definition SplitN2 (s sep : string) : option (list string) :=
  if bool_decide (sep = "") then None
  else match GoString.Index s sep with
       | Some m =>
           Some [ GoString.slice 0 m s; GoString.from (m + String.length sep) s ]
       | None => Some [ s ]
       end.

Section Split.

(** [strings.TrimSpace] of the Go standard library. *)
Variable TrimSpace : string -> string.

(** [Split]; [None] only where [SplitN2] is. *)
Definition Split (s sep : string) : option (string * string) :=
  match SplitN2 s sep with
  | Some (part0 :: rest) =>
      Some (TrimSpace part0, TrimSpace (safeIndex (part0 :: rest) 1))
  | _ => None
  end.

End Split.

(** ** Config map references of a pod *)

Definition configFromEnv (namespace : string) (configNames : list string)
    (env : EnvVar) : list string :=
  match ValueFrom env with
  | Some valueFrom =>
      match ConfigMapKeyRef valueFrom with
      | Some ref =>
          if bool_decide (cks_Name ref ≠ "")
          then configNames ++ [namespace +:+ "/" +:+ cks_Name ref]
          else configNames
      | None => configNames
      end
  | None => configNames
  end.

Definition configFromEnvFrom (namespace : string) (configNames : list string)
    (from : EnvFromSource) : list string :=
  match ConfigMapRef from with
  | Some ref =>
      if bool_decide (ces_Name ref ≠ "")
      then configNames ++ [namespace +:+ "/" +:+ ces_Name ref]
      else configNames
  | None => configNames
  end.

Definition ConfigNamesFromContainer (namespace : string) (container : Container)
    : list string :=
  let configNames := [] in
  let configNames := fold_left (configFromEnv namespace) (Env container) configNames in
  let configNames :=
    fold_left (configFromEnvFrom namespace) (EnvFrom container) configNames in
  configNames.

Definition ConfigNamesFromEphemeralContainer (namespace : string)
    (container : EphemeralContainer) : list string :=
  let configNames := [] in
  let configNames := fold_left (configFromEnv namespace) (ec_Env container) configNames in
  let configNames :=
    fold_left (configFromEnvFrom namespace) (ec_EnvFrom container) configNames in
  configNames.

Definition ConfigNamesFromPod (pod : Pod) : list string :=
  let ns := Namespace (pod_ObjectMeta pod) in
  let configMaps := [] in
  let configMaps :=
    fold_left (fun configMaps c => configMaps ++ ConfigNamesFromContainer ns c)
              (Containers (Spec pod)) configMaps in
  let configMaps :=
    fold_left (fun configMaps c => configMaps ++ ConfigNamesFromContainer ns c)
              (InitContainers (Spec pod)) configMaps in
  let configMaps :=
    fold_left (fun configMaps c => configMaps ++ ConfigNamesFromEphemeralContainer ns c)
              (EphemeralContainers (Spec pod)) configMaps in
  let configMaps :=
    fold_left (fun configMaps vol =>
                 match ConfigMap vol with
                 | Some src => configMaps ++ [ns +:+ "/" +:+ cmv_Name src]
                 | None => configMaps
                 end)
              (Volumes (Spec pod)) configMaps in
  UniqueSlice configMaps.

(** What the config map extractors read. *)
Definition envConfigRef (env : EnvVar) : option string :=
  match ValueFrom env with
  | Some valueFrom => cks_Name <$> ConfigMapKeyRef valueFrom
  | None => None
  end.

Definition envFromConfigRef (from : EnvFromSource) : option string :=
  ces_Name <$> ConfigMapRef from.

Definition volumeConfigRef (vol : Volume) : option string :=
  cmv_Name <$> ConfigMap vol.

(** The environment of a container names [name] through the selectors
    [ofEnv] and [ofEnvFrom]. *)
Definition envNames (ofEnv : EnvVar -> option string)
    (ofEnvFrom : EnvFromSource -> option string)
    (env : list EnvVar) (envFrom : list EnvFromSource) (name : string) : Prop :=
  (exists e, In e env /\ ofEnv e = Some name)
  \/ (exists f, In f envFrom /\ ofEnvFrom f = Some name).

(** Some container of the pod (main, init or ephemeral) names [name]. *)
Definition containersName (ofEnv : EnvVar -> option string)
    (ofEnvFrom : EnvFromSource -> option string) (pod : Pod) (name : string) : Prop :=
  (exists c, In c (Containers (Spec pod))
             /\ envNames ofEnv ofEnvFrom (Env c) (EnvFrom c) name)
  \/ (exists c, In c (InitContainers (Spec pod))
                /\ envNames ofEnv ofEnvFrom (Env c) (EnvFrom c) name)
  \/ (exists c, In c (EphemeralContainers (Spec pod))
                /\ envNames ofEnv ofEnvFrom (ec_Env c) (ec_EnvFrom c) name).

(** The secret [name] is referenced by the pod, as [SecretNamesFromPod]
    sees it: a non-empty name in a container, or any name among the image
    pull secrets and the secret volumes. *)
Definition secretReferenced (pod : Pod) (name : string) : Prop :=
  (name <> "" /\ containersName envSecretRef envFromSecretRef pod name)
  \/ (exists ref, In ref (ImagePullSecrets (Spec pod)) /\ lor_Name ref = name)
  \/ (exists vol, In vol (Volumes (Spec pod)) /\ volumeSecretRef vol = Some name).

(** The config map [name] is referenced by the pod, as
    [ConfigNamesFromPod] sees it. *)
Definition configReferenced (pod : Pod) (name : string) : Prop :=
  (name <> "" /\ containersName envConfigRef envFromConfigRef pod name)
  \/ (exists vol, In vol (Volumes (Spec pod)) /\ volumeConfigRef vol = Some name).

(** Reading a key of a Go map in the comma-ok form: a nil map has no
    keys. *)
Definition lookupNil (m : option (gmap string string)) (k : string) : option string :=
  match m with
  | Some m => m !! k
  | None => None
  end.

(** The entry a container contributes for a selector that may be nil. *)
Definition refEntry (namespace : string) (ref : option string) : list string :=
  match ref with
  | Some name =>
      if bool_decide (name <> "") then [namespace +:+ "/" +:+ name] else []
  | None => []
  end.

(** The config map references of a pod in field order, before
    [UniqueSlice]. *)
Definition configEntries (pod : Pod) : list string :=
  let ns := Namespace (pod_ObjectMeta pod) in
  flat_map (ConfigNamesFromContainer ns) (Containers (Spec pod))
  ++ flat_map (ConfigNamesFromContainer ns) (InitContainers (Spec pod))
  ++ flat_map (ConfigNamesFromEphemeralContainer ns) (EphemeralContainers (Spec pod))
  ++ flat_map (fun vol => match ConfigMap vol with
                          | Some src => [ns +:+ "/" +:+ cmv_Name src]
                          | None => []
                          end) (Volumes (Spec pod)).

(** * Theorems *)

(** ** Strings *)

Lemma length_append (s t : string) :
  String.length (s +:+ t) = String.length s + String.length t.
Proof. induction s as [|c s IH]; simpl; [reflexivity | now rewrite IH]. Qed.

Lemma length_substring0 (n : nat) (s : string) :
  String.length (substring 0 n s) = Nat.min n (String.length s).
Proof.
  revert s; induction n as [|n IH]; intros [|c s]; simpl; try reflexivity.
  now rewrite IH.
Qed.

Lemma Join_concat (parts : list string) (sep : string) :
  GoString.Join parts sep = String.concat sep parts.
Proof.
  induction parts as [|p [|q rest] IH]; simpl in *; try reflexivity.
  now rewrite IH.
Qed.

(** ** Checksum and hex encoding *)

Lemma length_Sum256 (data : list Z) : length (sha256.Sum256 data) = 32.
Proof. unfold sha256.Sum256. cbn zeta. now rewrite !length_app. Qed.

Lemma length_EncodeToString (src : list Z) :
  String.length (hex.EncodeToString src) = 2 * length src.
Proof. induction src as [|b src IH]; simpl; [reflexivity | rewrite IH; lia]. Qed.

Lemma length_hex_prefix (s : string) :
  String.length
    (GoString.slice 0 10 (hex.EncodeToString (sha256.Sum256 (GoString.bytes s)))) = 10.
Proof.
  unfold GoString.slice.
  rewrite length_substring0, length_EncodeToString, length_Sum256. reflexivity.
Qed.

(** ** Name translation *)

Lemma SafeConcatName_short (name : list string) :
  String.length (GoString.Join name "-") <= 63 ->
  SafeConcatName name = GoString.Join name "-".
Proof.
  intros H. unfold SafeConcatName. cbn zeta.
  destruct (Nat.ltb_spec 63 (String.length (GoString.Join name "-"))); [lia | reflexivity].
Qed.

Lemma SafeConcatName_long (name : list string) :
  63 < String.length (GoString.Join name "-") ->
  SafeConcatName name
  = substring 0 52 (GoString.Join name "-") +:+ "-"
      +:+ substring 0 10 (hex.EncodeToString
                            (sha256.Sum256 (GoString.bytes (GoString.Join name "-")))).
Proof.
  intros H. unfold SafeConcatName. cbn zeta.
  destruct (Nat.ltb_spec 63 (String.length (GoString.Join name "-"))); [reflexivity | lia].
Qed.

Lemma length_SafeConcatName (name : list string) :
  String.length (SafeConcatName name)
  = if Nat.ltb 63 (String.length (GoString.Join name "-")) then 63
    else String.length (GoString.Join name "-").
Proof.
  unfold SafeConcatName. cbn zeta.
  destruct (Nat.ltb_spec 63 (String.length (GoString.Join name "-"))) as [H|H];
    [|reflexivity].
  rewrite !length_append, length_hex_prefix. unfold GoString.slice.
  rewrite length_substring0. simpl String.length. lia.
Qed.

(** C1: [PhysicalName name namespace] is the dash-join of
    [name; "x"; namespace; "x"; Suffix] when that string has at most 63
    bytes, and otherwise its first 52 bytes, a dash, and the first 10 hex
    digits of the SHA-256 checksum of the whole joined string. *)
Theorem PhysicalName_spec (g : Globals) (name namespace : string) :
  let joined := String.concat "-" [name; "x"; namespace; "x"; Suffix g] in
  PhysicalName g name namespace
  = if Nat.leb (String.length joined) 63 then joined
    else substring 0 52 joined +:+ "-"
         +:+ substring 0 10 (hex.EncodeToString (sha256.Sum256 (GoString.bytes joined))).
Proof.
  intros joined. unfold PhysicalName.
  assert (Hj : GoString.Join [name; "x"; namespace; "x"; Suffix g] "-" = joined)
    by apply Join_concat.
  destruct (Nat.leb_spec (String.length joined) 63) as [H|H].
  - rewrite SafeConcatName_short; rewrite Hj; [reflexivity | exact H].
  - rewrite SafeConcatName_long; rewrite Hj; [reflexivity | exact H].
Qed.

(** C9: a physical name never has more than 63 bytes, and it has exactly
    63 when the joined string is longer than 63 (the hashed regime);
    otherwise it is the joined string itself. *)
Theorem PhysicalName_length (g : Globals) (name namespace : string) :
  let joined := String.concat "-" [name; "x"; namespace; "x"; Suffix g] in
  String.length (PhysicalName g name namespace) <= 63
  /\ String.length (PhysicalName g name namespace)
     = if Nat.ltb 63 (String.length joined) then 63 else String.length joined.
Proof.
  intros joined. unfold PhysicalName.
  rewrite length_SafeConcatName, Join_concat. fold joined.
  destruct (Nat.ltb_spec 63 (String.length joined)); split; (reflexivity || lia).
Qed.

(** Known answers of the checksum (FIPS 180-4 examples). *)
Example Sum256_abc :
  hex.EncodeToString (sha256.Sum256 (GoString.bytes "abc"))
  = "ba7816bf8f01cfea414140de5dae2223b00361a396177a9cb410ff61f20015ad".
Proof. vm_compute. reflexivity. Qed.

Example Sum256_empty :
  hex.EncodeToString (sha256.Sum256 (GoString.bytes ""))
  = "e3b0c44298fc1c149afbf4c8996fb92427ae41e4649b934ca495991b7852b855".
Proof. vm_compute. reflexivity. Qed.

Example Sum256_two_blocks :
  hex.EncodeToString (sha256.Sum256 (GoString.bytes
    "abcdbcdecdefdefgefghfghighijhijkijkljklmklmnlmnomnopnopq"))
  = "248d6a61d20638b8e5c026930c3e6039a33ce45964ff2167f6ecedd419db06c1".
Proof. vm_compute. reflexivity. Qed.

Example PhysicalName_short :
  PhysicalName initial_globals "test-secret" "test" = "test-secret-x-test-x-suffix".
Proof. vm_compute. reflexivity. Qed.

Example PhysicalName_hashed :
  PhysicalName initial_globals "aaaaaaaaaaaaaaaaaaaaaaaaaaaaaaaaaaaaaaaa"
                               "bbbbbbbbbbbbbbbbbbbbbbbbbbbbbb"
  = "aaaaaaaaaaaaaaaaaaaaaaaaaaaaaaaaaaaaaaaa-x-bbbbbbbbb-a8cfeb015c".
Proof. vm_compute. reflexivity. Qed.

(** ** Metadata *)

(** What the thirteen setter calls leave behind. *)
Lemma ResetObjectMetadata_eq (obj : ObjectMeta) :
  ResetObjectMetadata obj
  = {| Name := Name obj; GenerateName := ""; Namespace := Namespace obj;
       SelfLink := ""; UID := ""; ResourceVersion := ""; Generation := 0;
       CreationTimestamp := 0%Z; DeletionTimestamp := None;
       DeletionGracePeriodSeconds := None; Labels := None;
       Annotations := Annotations obj; OwnerReferences := None;
       Finalizers := None; ClusterName := ""; ManagedFields := None |}.
Proof. reflexivity. Qed.

(** C8: resetting the metadata twice leaves the object in the state the
    first reset produced. *)
Theorem ResetObjectMetadata_idempotent (obj : ObjectMeta) :
  ResetObjectMetadata (ResetObjectMetadata obj) = ResetObjectMetadata obj.
Proof. rewrite !ResetObjectMetadata_eq. reflexivity. Qed.

(** C10: [ResetObjectMetadata] keeps name, namespace and annotations; the
    thirteen fields it sets hold their zero values afterwards, whatever
    they held before. *)
Theorem ResetObjectMetadata_frame (obj : ObjectMeta) :
  Name (ResetObjectMetadata obj) = Name obj
  /\ Namespace (ResetObjectMetadata obj) = Namespace obj
  /\ Annotations (ResetObjectMetadata obj) = Annotations obj
  /\ ResetObjectMetadata obj
     = {| Name := Name obj; GenerateName := GenerateName emptyObjectMeta;
          Namespace := Namespace obj; SelfLink := SelfLink emptyObjectMeta;
          UID := UID emptyObjectMeta;
          ResourceVersion := ResourceVersion emptyObjectMeta;
          Generation := Generation emptyObjectMeta;
          CreationTimestamp := CreationTimestamp emptyObjectMeta;
          DeletionTimestamp := DeletionTimestamp emptyObjectMeta;
          DeletionGracePeriodSeconds := DeletionGracePeriodSeconds emptyObjectMeta;
          Labels := Labels emptyObjectMeta; Annotations := Annotations obj;
          OwnerReferences := OwnerReferences emptyObjectMeta;
          Finalizers := Finalizers emptyObjectMeta;
          ClusterName := ClusterName emptyObjectMeta;
          ManagedFields := ManagedFields emptyObjectMeta |}.
Proof. repeat split. Qed.

(** ** [SetupMetadata] *)

Lemma initMetadata_eq {B} (g : Globals) (targetNamespace : string)
    (m : ObjectMeta) (body : B) :
  initMetadata g targetNamespace (WithMeta m body)
  = Ok (WithMeta
          {| Name := PhysicalName g (Name m) (Namespace m); GenerateName := "";
             Namespace := targetNamespace; SelfLink := ""; UID := "";
             ResourceVersion := ""; Generation := 0; CreationTimestamp := 0%Z;
             DeletionTimestamp := None; DeletionGracePeriodSeconds := None;
             Labels := Some {[ MarkerLabel g := Suffix g ]};
             Annotations := Annotations m;
             OwnerReferences :=
               (fun sts => [ownerReferenceTo sts]) <$> OwningStatefulSet g;
             Finalizers := None; ClusterName := ""; ManagedFields := None |}
          body).
Proof.
  unfold initMetadata. cbn zeta. rewrite ResetObjectMetadata_eq.
  destruct (OwningStatefulSet g) as [sts|]; reflexivity.
Qed.

(** An object without metadata is refused, and nothing is produced. *)
Lemma SetupMetadata_NoMeta {B} (g : Globals) (targetNamespace : string) (body : B) :
  SetupMetadata g targetNamespace (NoMeta body) = Err errNotObject.
Proof. reflexivity. Qed.

(** C2: for an object with metadata, [SetupMetadata] succeeds; the object
    it produces has generateName, selfLink, UID, resourceVersion,
    generation, both timestamps, deletionGracePeriodSeconds, finalizers,
    cluster name and managed fields cleared, its labels are the single
    pair [MarkerLabel := Suffix], its name is [PhysicalName] of the
    original name and namespace, its namespace is the target namespace,
    and its owner references are the one to the owning stateful set when
    [OwningStatefulSet] is set and nil when it is not.  Annotations and
    the body of the object are carried over. *)
Theorem SetupMetadata_spec {B} (g : Globals) (targetNamespace : string)
    (m : ObjectMeta) (body : B) :
  exists m',
    SetupMetadata g targetNamespace (WithMeta m body) = Ok (WithMeta m' body)
    /\ GenerateName m' = "" /\ SelfLink m' = "" /\ UID m' = ""
    /\ ResourceVersion m' = "" /\ Generation m' = 0%Z
    /\ CreationTimestamp m' = 0%Z /\ DeletionTimestamp m' = None
    /\ DeletionGracePeriodSeconds m' = None /\ Finalizers m' = None
    /\ ClusterName m' = "" /\ ManagedFields m' = None
    /\ Labels m' = Some {[ MarkerLabel g := Suffix g ]}
    /\ Name m' = PhysicalName g (Name m) (Namespace m)
    /\ Namespace m' = targetNamespace
    /\ Annotations m' = Annotations m
    /\ OwnerReferences m'
       = match OwningStatefulSet g with
         | Some sts => Some [ownerReferenceTo sts]
         | None => None
         end.
Proof.
  unfold SetupMetadata. cbn zeta. rewrite initMetadata_eq.
  eexists. split; [reflexivity|]. simpl.
  repeat split.
Qed.

(** ** [IsManaged] *)

Lemma IsManaged_true {B} (g : Globals) (obj : RuntimeObject B) :
  IsManaged g obj = true
  <-> exists m body labels,
        obj = WithMeta m body /\ Labels m = Some labels
        /\ default "" (labels !! MarkerLabel g) = Suffix g.
Proof.
  unfold IsManaged. destruct obj as [m body|body]; simpl.
  - destruct (Labels m) as [labels|] eqn:HL; simpl.
    + rewrite bool_decide_eq_true. split.
      * intros H. exists m, body, labels. auto.
      * intros (m0 & b0 & l0 & Heq & HL0 & H). inversion Heq; subst.
        rewrite HL in HL0. inversion HL0; subst. exact H.
    + split; [discriminate|].
      intros (m0 & b0 & l0 & Heq & HL0 & _). inversion Heq; subst. congruence.
  - split; [discriminate|]. intros (m0 & b0 & l0 & Heq & _). discriminate.
Qed.

(** C7, as amended: when [Suffix] is not the empty string, [IsManaged]
    answers true exactly for the objects that carry the label
    [MarkerLabel] with the value [Suffix], and false for every object
    without that label. *)
Theorem IsManaged_iff {B} (g : Globals) (obj : RuntimeObject B) :
  Suffix g <> "" ->
  (IsManaged g obj = true <-> carriesMarker g obj)
  /\ (~ hasMarkerLabel g obj -> IsManaged g obj = false).
Proof.
  intros Hs.
  assert (Hiff : IsManaged g obj = true <-> carriesMarker g obj).
  { rewrite IsManaged_true. unfold carriesMarker. split.
    - intros (m & body & labels & Heq & HL & H). exists m, body, labels.
      repeat split; try assumption.
      destruct (labels !! MarkerLabel g) as [v|]; simpl in H; congruence.
    - intros (m & body & labels & Heq & HL & H). exists m, body, labels.
      repeat split; try assumption. now rewrite H. }
  split; [exact Hiff|].
  intros Hno. destruct (IsManaged g obj) eqn:E; [|reflexivity].
  exfalso. apply Hno. destruct Hiff as [Hiff _].
  destruct (Hiff eq_refl) as (m & body & labels & Heq & HL & H).
  exists m, body, labels. repeat split; try assumption. now rewrite H.
Qed.

(** The amended statement at the initial values of the variables and an
    object carrying the marker. *)
Lemma IsManaged_iff_witness :
  Suffix initial_globals <> ""
  /\ (IsManaged initial_globals
        (WithMeta (SetLabels emptyObjectMeta
                     (Some {[ "vcluster.loft.sh/managed-by" := "suffix" ]})) tt) = true
      <-> carriesMarker initial_globals
            (WithMeta (SetLabels emptyObjectMeta
                         (Some {[ "vcluster.loft.sh/managed-by" := "suffix" ]})) tt)).
Proof.
  split; [discriminate|].
  apply (IsManaged_iff initial_globals
           (WithMeta (SetLabels emptyObjectMeta
                        (Some {[ "vcluster.loft.sh/managed-by" := "suffix" ]})) tt)).
  discriminate.
Defined.

(** C7, as stated, fails: with an empty [Suffix], an object whose label
    map is allocated but lacks [MarkerLabel] is reported as managed,
    because reading a missing key yields the empty string. *)
Lemma IsManaged_empty_suffix_counterexample :
  let g := {| MarkerLabel := "vcluster.loft.sh/managed-by"; Suffix := "";
              OwningStatefulSet := None |} in
  let obj := WithMeta (SetLabels emptyObjectMeta (Some {[ "app" := "web" ]})) tt in
  IsManaged g obj = true /\ ~ carriesMarker g obj /\ ~ hasMarkerLabel g obj.
Proof.
  cbn zeta. split; [vm_compute; reflexivity|].
  split.
  - intros (m & body & labels & Heq & HL & H). inversion Heq; subst.
    simpl in HL. inversion HL; subst. vm_compute in H. discriminate.
  - intros (m & body & labels & Heq & HL & [v H]). inversion Heq; subst.
    simpl in HL. inversion HL; subst. vm_compute in H. discriminate.
Qed.

(** ** The redirect table *)

Lemma redirectResources_pairs (requestHeaderCaFile clientCaFile : string) :
  map (fun e => (gvr_Resource (gvrv_GroupVersionResource e), SubResource e))
      (redirectResources (NewServer requestHeaderCaFile clientCaFile))
  = listedPairs.
Proof. reflexivity. Qed.

Lemma listed_iff (s : Server) (resource subresource : string) :
  listed s resource subresource = true
  <-> In (resource, subresource)
         (map (fun e => (gvr_Resource (gvrv_GroupVersionResource e), SubResource e))
              (redirectResources s)).
Proof.
  unfold listed. rewrite existsb_exists, in_map_iff. split.
  - intros (e & Hin & Hb). apply andb_true_iff in Hb as [H1 H2].
    apply bool_decide_eq_true in H1, H2. exists e. subst. auto.
  - intros (e & Heq & Hin). inversion Heq; subst. exists e. split; [exact Hin|].
    apply andb_true_iff. split; apply bool_decide_eq_true; reflexivity.
Qed.

(** C3, as amended: the table handed to the redirect filter lists exactly
    the seven pairs nodes/proxy, pods/portforward, pods/exec, pods/attach,
    pods/log, pods/proxy and services/proxy, each for the core group at
    version v1 and for every verb; each of them lies in the cross product
    of the specification's resources and subresources. *)
Theorem redirectResources_spec (requestHeaderCaFile clientCaFile : string) :
  let s := NewServer requestHeaderCaFile clientCaFile in
  (forall resource subresource,
      listed s resource subresource = true
      <-> In (resource, subresource) listedPairs)
  /\ Forall (fun p => In (fst p) specResources /\ In (snd p) specSubresources)
            listedPairs
  /\ Forall (fun e => Verb e = "*"
                      /\ gvr_Group (gvrv_GroupVersionResource e) = ""
                      /\ gvr_Version (gvrv_GroupVersionResource e) = "v1")
            (redirectResources s).
Proof.
  intros s. split; [|split].
  - intros resource subresource. unfold s. rewrite listed_iff.
    rewrite redirectResources_pairs. reflexivity.
  - unfold listedPairs, specResources, specSubresources.
    repeat (constructor; [split; simpl; auto 10|]). constructor.
  - unfold s. simpl.
    repeat (constructor; [repeat split|]). constructor.
Qed.

(** C3, as stated, fails: nodes/exec lies in the cross product and is not
    in the table (nor are seven more pairs, services/log among them). *)
Lemma redirect_cross_product_counterexample :
  ~ (forall resource subresource,
       In resource specResources -> In subresource specSubresources ->
       listed (NewServer "" "") resource subresource = true).
Proof.
  intros H. specialize (H "nodes" "exec").
  assert (E : listed (NewServer "" "") "nodes" "exec" = false)
    by (vm_compute; reflexivity).
  rewrite H in E; [discriminate | simpl; auto | simpl; auto].
Qed.

(** ** [UniqueSlice] *)

Lemma UniqueSlice_body_inv st entry :
  UniqueSlice_inv st -> UniqueSlice_inv (UniqueSlice_body st entry).
Proof.
  destruct st as [keys out]. unfold UniqueSlice_inv, UniqueSlice_body. simpl.
  intros [Hnd Hk]. case_bool_decide as Hempty; [auto|].
  destruct (keys !! entry) as [b|] eqn:E; [auto|]. simpl. split.
  - apply NoDup_app. split; [exact Hnd|]. split; [|apply NoDup_singleton].
    intros x Hx Hx'. apply list_elem_of_singleton in Hx'. subst x.
    apply Hk in Hx. rewrite E in Hx. destruct Hx; discriminate.
  - intros x. rewrite elem_of_app, list_elem_of_singleton.
    destruct (decide (entry = x)) as [->|Hne].
    + rewrite lookup_insert_eq. split; eauto.
    + rewrite lookup_insert_ne by exact Hne. rewrite Hk. split; [auto|].
      intros [H|H]; [exact H | congruence].
Qed.

Lemma UniqueSlice_fold_inv l st :
  UniqueSlice_inv st -> UniqueSlice_inv (fold_left UniqueSlice_body l st).
Proof.
  revert st; induction l as [|x l IH]; intros st H; simpl; [exact H|].
  apply IH, UniqueSlice_body_inv, H.
Qed.

Lemma UniqueSlice_NoDup (l : list string) : NoDup (UniqueSlice l).
Proof.
  unfold UniqueSlice. apply (UniqueSlice_fold_inv l (∅, [])).
  split; simpl; [constructor|]. intros x. rewrite lookup_empty. split.
  - intros [? ?]; discriminate.
  - intros H. inversion H.
Qed.

(** The entries that survive are the non-empty entries of the argument. *)
Lemma UniqueSlice_body_elem st entry x :
  UniqueSlice_inv st ->
  x ∈ snd (UniqueSlice_body st entry) <-> x ∈ snd st \/ (x = entry /\ x <> "").
Proof.
  destruct st as [keys out]. unfold UniqueSlice_inv, UniqueSlice_body. simpl.
  intros [_ Hk]. case_bool_decide as Hempty; simpl.
  - split; [auto|]. intros [H|[-> H]]; [exact H | contradiction].
  - destruct (keys !! entry) as [b|] eqn:E; simpl.
    + split; [auto|]. intros [H|[-> _]]; [exact H|]. apply Hk. rewrite E. eauto.
    + rewrite elem_of_app, list_elem_of_singleton. split.
      * intros [H| ->]; auto.
      * intros [H|[-> _]]; auto.
Qed.

Lemma UniqueSlice_fold_elem l st x :
  UniqueSlice_inv st ->
  x ∈ snd (fold_left UniqueSlice_body l st) <-> x ∈ snd st \/ (x ∈ l /\ x <> "").
Proof.
  revert st; induction l as [|e l IH]; intros st H; simpl.
  - split; [auto|]. intros [?|[Hin _]]; [assumption | inversion Hin].
  - rewrite IH by (apply UniqueSlice_body_inv, H).
    rewrite UniqueSlice_body_elem by exact H. rewrite elem_of_cons.
    split.
    + intros [[?|[-> ?]]|[? ?]]; auto.
    + intros [?|[[->|?] ?]]; auto.
Qed.

Lemma UniqueSlice_elem (l : list string) (x : string) :
  x ∈ UniqueSlice l <-> x ∈ l /\ x <> "".
Proof.
  unfold UniqueSlice. rewrite UniqueSlice_fold_elem.
  - simpl. split; [intros [H|H]; [inversion H | exact H] | auto].
  - split; simpl; [constructor|]. intros y. rewrite lookup_empty. split.
    + intros [? ?]; discriminate.
    + intros H. inversion H.
Qed.

(** ** Secret references of a pod *)

Section Loops.
Context {A : Type}.

(** A loop that appends to a slice appends the pieces in order. *)
Lemma fold_left_append (f : A -> list string) (l : list A) (acc : list string) :
  fold_left (fun acc x => acc ++ f x) l acc = acc ++ flat_map f l.
Proof.
  revert acc; induction l as [|x l IH]; intros acc; simpl.
  - now rewrite app_nil_r.
  - rewrite IH. now rewrite <- app_assoc.
Qed.

Lemma fold_left_step (step : list string -> A -> list string)
    (l : list A) (acc : list string) :
  (forall acc x, step acc x = acc ++ step [] x) ->
  fold_left step l acc = acc ++ flat_map (step []) l.
Proof.
  intros Hstep. revert acc; induction l as [|x l IH]; intros acc; simpl.
  - now rewrite app_nil_r.
  - rewrite IH, (Hstep acc x). now rewrite <- app_assoc.
Qed.

Lemma flat_map_nil (f : A -> list string) (l : list A) :
  Forall (fun x => f x = []) l -> flat_map f l = [].
Proof.
  induction 1 as [|x l Hx _ IH]; simpl; [reflexivity|]. now rewrite Hx, IH.
Qed.
End Loops.

Lemma secretFromEnv_append namespace secrets env :
  secretFromEnv namespace secrets env = secrets ++ secretFromEnv namespace [] env.
Proof.
  unfold secretFromEnv. destruct (ValueFrom env) as [vf|]; [|now rewrite app_nil_r].
  destruct (SecretKeyRef vf) as [r|]; [|now rewrite app_nil_r].
  case_bool_decide; [reflexivity | now rewrite app_nil_r].
Qed.

Lemma secretFromEnvFrom_append namespace secrets from :
  secretFromEnvFrom namespace secrets from
  = secrets ++ secretFromEnvFrom namespace [] from.
Proof.
  unfold secretFromEnvFrom. destruct (SecretRef from) as [r|]; [|now rewrite app_nil_r].
  case_bool_decide; [reflexivity | now rewrite app_nil_r].
Qed.

Lemma secretLoops namespace env envFrom :
  fold_left (secretFromEnvFrom namespace) envFrom
            (fold_left (secretFromEnv namespace) env [])
  = flat_map (secretFromEnv namespace []) env
    ++ flat_map (secretFromEnvFrom namespace []) envFrom.
Proof.
  rewrite (fold_left_step _ envFrom) by apply secretFromEnvFrom_append.
  rewrite (fold_left_step _ env) by apply secretFromEnv_append.
  reflexivity.
Qed.

Lemma SecretNamesFromContainer_eq namespace container :
  SecretNamesFromContainer namespace container
  = flat_map (secretFromEnv namespace []) (Env container)
    ++ flat_map (secretFromEnvFrom namespace []) (EnvFrom container).
Proof. apply secretLoops. Qed.

Lemma SecretNamesFromEphemeralContainer_eq namespace container :
  SecretNamesFromEphemeralContainer namespace container
  = flat_map (secretFromEnv namespace []) (ec_Env container)
    ++ flat_map (secretFromEnvFrom namespace []) (ec_EnvFrom container).
Proof. apply secretLoops. Qed.

(** The five loops of [SecretNamesFromPod] collect the references in field
    order: containers, init containers, ephemeral containers, image pull
    secrets, volumes. *)
Lemma SecretNamesFromPod_eq (pod : Pod) :
  SecretNamesFromPod pod = UniqueSlice (secretEntries pod).
Proof.
  unfold SecretNamesFromPod, secretEntries. cbn zeta. f_equal.
  set (ns := Namespace (pod_ObjectMeta pod)).
  rewrite (fold_left_step _ (Volumes (Spec pod))).
  2:{ intros acc x. destruct (Secret x); [reflexivity | now rewrite app_nil_r]. }
  rewrite (fold_left_append (fun ref => [ns +:+ "/" +:+ lor_Name ref])).
  rewrite !fold_left_append. simpl app.
  rewrite <- !app_assoc. repeat f_equal.
Qed.

Lemma secretFromEnv_ref namespace env :
  secretFromEnv namespace [] env
  = match envSecretRef env with
    | Some name => if bool_decide (name <> "") then [namespace +:+ "/" +:+ name] else []
    | None => []
    end.
Proof.
  unfold secretFromEnv, envSecretRef. destruct (ValueFrom env) as [vf|]; [|reflexivity].
  destruct (SecretKeyRef vf) as [r|]; reflexivity.
Qed.

Lemma secretFromEnvFrom_ref namespace from :
  secretFromEnvFrom namespace [] from
  = match envFromSecretRef from with
    | Some name => if bool_decide (name <> "") then [namespace +:+ "/" +:+ name] else []
    | None => []
    end.
Proof.
  unfold secretFromEnvFrom, envFromSecretRef.
  destruct (SecretRef from) as [r|]; reflexivity.
Qed.

Lemma noSecretRefs_nil namespace env envFrom :
  noSecretRefs env envFrom ->
  flat_map (secretFromEnv namespace []) env
  ++ flat_map (secretFromEnvFrom namespace []) envFrom = [].
Proof.
  intros [He Hf]. rewrite !flat_map_nil; [reflexivity | |].
  - eapply Forall_impl; [exact Hf|]. intros f H. cbn beta in *.
    now rewrite secretFromEnvFrom_ref, H.
  - eapply Forall_impl; [exact He|]. intros e H. cbn beta in *.
    now rewrite secretFromEnv_ref, H.
Qed.

(** Every reference a container contributes is qualified with the
    namespace and has a non-empty name. *)
Lemma container_entries namespace env envFrom x :
  In x (flat_map (secretFromEnv namespace []) env
        ++ flat_map (secretFromEnvFrom namespace []) envFrom) ->
  exists name, name <> "" /\ x = namespace +:+ "/" +:+ name.
Proof.
  rewrite in_app_iff, !in_flat_map. intros [(e & _ & H)|(f & _ & H)].
  - rewrite secretFromEnv_ref in H. destruct (envSecretRef e) as [name|]; [|destruct H].
    case_bool_decide as Hn; [|destruct H]. destruct H as [<-|[]]. eauto.
  - rewrite secretFromEnvFrom_ref in H.
    destruct (envFromSecretRef f) as [name|]; [|destruct H].
    case_bool_decide as Hn; [|destruct H]. destruct H as [<-|[]]. eauto.
Qed.

(** The list [SecretNamesFromPod] returns has no duplicates. *)
Lemma SecretNamesFromPod_NoDup (pod : Pod) : NoDup (SecretNamesFromPod pod).
Proof. rewrite SecretNamesFromPod_eq. apply UniqueSlice_NoDup. Qed.

(** Every entry is a name qualified with the namespace of the pod. *)
Lemma SecretNamesFromPod_qualified (pod : Pod) (x : string) :
  x ∈ SecretNamesFromPod pod ->
  exists name, x = Namespace (pod_ObjectMeta pod) +:+ "/" +:+ name.
Proof.
  rewrite SecretNamesFromPod_eq, UniqueSlice_elem. intros [Hin _].
  apply list_elem_of_In in Hin. unfold secretEntries in Hin. cbn zeta in Hin.
  rewrite !in_app_iff, !in_flat_map, in_map_iff in Hin.
  destruct Hin as [(c & _ & H)|[(c & _ & H)|[(c & _ & H)|[(r & H & _)|(v & _ & H)]]]].
  - rewrite SecretNamesFromContainer_eq in H.
    apply container_entries in H as (name & _ & ->). eauto.
  - rewrite SecretNamesFromContainer_eq in H.
    apply container_entries in H as (name & _ & ->). eauto.
  - rewrite SecretNamesFromEphemeralContainer_eq in H.
    apply container_entries in H as (name & _ & ->). eauto.
  - eauto.
  - destruct (Secret v) as [src|]; [|destruct H]. destruct H as [<-|[]]. eauto.
Qed.

(** C4 fails on the code: a pod in namespace test whose only reference is
    an image pull secret with an empty name, or a secret volume with an
    empty secret name, yields the entry [test/], whose secret name is
    empty.  The per-container loops test the name against the empty
    string; the loops over image pull secrets and volumes do not, and the
    test in [UniqueSlice] never fires on a qualified entry. *)
Theorem SecretNamesFromPod_empty_name :
  let meta := SetNamespace (SetName emptyObjectMeta "test") "test" in
  let pull := {| pod_ObjectMeta := meta;
                 Spec := {| Volumes := []; InitContainers := []; Containers := [];
                            EphemeralContainers := [];
                            ImagePullSecrets := [ {| lor_Name := "" |} ] |} |} in
  let vol := {| pod_ObjectMeta := meta;
                Spec := {| Volumes := [ {| v_Name := "data";
                                          Secret := Some {| SecretName := "" |};
                                          ConfigMap := None |} ];
                           InitContainers := []; Containers := [];
                           EphemeralContainers := []; ImagePullSecrets := [] |} |} in
  SecretNamesFromPod pull = ["test" +:+ "/" +:+ ""]
  /\ SecretNamesFromPod vol = ["test" +:+ "/" +:+ ""].
Proof. cbn zeta. split; vm_compute; reflexivity. Qed.

Lemma flat_map_middle {A} (f : A -> list string) (l1 l2 : list A) (x : A) :
  Forall (fun y => f y = []) (l1 ++ l2) ->
  flat_map f (l1 ++ x :: l2) = f x.
Proof.
  intros H. apply Forall_app in H as [H1 H2].
  rewrite flat_map_app. simpl. rewrite !flat_map_nil by assumption.
  now rewrite app_nil_r.
Qed.

(** C5: for a pod in namespace test whose only secret references are an
    environment entry with [secretKeyRef.name = a] in a main container and
    a volume with [secret.secretName = b], [SecretNamesFromPod] returns
    [test/a; test/b], in that order; in general the entries keep the order
    containers, init containers, ephemeral containers, image pull secrets,
    volumes. *)
Theorem SecretNamesFromPod_env_and_volume (pod : Pod) :
  Namespace (pod_ObjectMeta pod) = "test" ->
  onlyEnvAndVolumeRef "a" "b" pod ->
  SecretNamesFromPod pod = ["test/a"; "test/b"]
  /\ SecretNamesFromPod pod = UniqueSlice (secretEntries pod).
Proof.
  intros Hns (cs1 & c & cs2 & es1 & e & es2 & vs1 & v & vs2 & HC & Hcs & HE & He
              & Hc & Hinit & Heph & Hpull & HV & Hv & Hvs).
  split; [|apply SecretNamesFromPod_eq].
  rewrite SecretNamesFromPod_eq.
  assert (Hentries : secretEntries pod = ["test/a"; "test/b"]).
  { unfold secretEntries. cbn zeta. rewrite Hns, HC, Hpull, HV.
    rewrite (flat_map_middle _ cs1 cs2).
    2:{ eapply Forall_impl; [exact Hcs|]. intros c' H. cbn beta in *.
        rewrite SecretNamesFromContainer_eq. now apply noSecretRefs_nil. }
    rewrite (flat_map_nil _ (InitContainers (Spec pod))).
    2:{ eapply Forall_impl; [exact Hinit|]. intros c' H. cbn beta in *.
        rewrite SecretNamesFromContainer_eq. now apply noSecretRefs_nil. }
    rewrite (flat_map_nil _ (EphemeralContainers (Spec pod))).
    2:{ eapply Forall_impl; [exact Heph|]. intros c' H. cbn beta in *.
        rewrite SecretNamesFromEphemeralContainer_eq. now apply noSecretRefs_nil. }
    rewrite (flat_map_middle _ vs1 vs2).
    2:{ eapply Forall_impl; [exact Hvs|]. intros v' H. cbn beta in *.
        unfold volumeSecretRef in H. now destruct (Secret v'). }
    rewrite SecretNamesFromContainer_eq, HE. destruct Hc as [Hes Hfrom].
    rewrite (flat_map_middle _ es1 es2).
    2:{ eapply Forall_impl; [exact Hes|]. intros e' H. cbn beta in *.
        now rewrite secretFromEnv_ref, H. }
    rewrite (flat_map_nil _ (EnvFrom c)).
    2:{ eapply Forall_impl; [exact Hfrom|]. intros f H. cbn beta in *.
        now rewrite secretFromEnvFrom_ref, H. }
    rewrite secretFromEnv_ref, He.
    unfold volumeSecretRef in Hv. destruct (Secret v) as [src|]; [|discriminate].
    simpl in Hv. injection Hv as Hv. rewrite Hv. reflexivity. }
  rewrite Hentries. vm_compute. reflexivity.
Qed.

(** The theorem at the pod of the test. *)
Lemma SecretNamesFromPod_env_and_volume_witness :
  Namespace (pod_ObjectMeta testPod) = "test"
  /\ SecretNamesFromPod testPod = ["test/a"; "test/b"].
Proof.
  split; [reflexivity|].
  apply (SecretNamesFromPod_env_and_volume testPod); [reflexivity|].
  exists [], (mkContainer "test"
                [ mkEnvVar "test" ""
                    (Some (mkEnvVarSource None (Some (mkSecretKeySelector "a" "")))) ] []),
         [], [],
         (mkEnvVar "test" "" (Some (mkEnvVarSource None (Some (mkSecretKeySelector "a" ""))))),
         [], [], (mkVolume "test" (Some (mkSecretVolumeSource "b")) None), [].
  unfold noSecretRefs. simpl. repeat split; constructor.
Defined.

(** ** The service-CIDR probe *)

Lemma append_cons (c : ascii) (a b : string) :
  String c a +:+ b = String c (a +:+ b).
Proof. reflexivity. Qed.

Lemma HasPrefix_spec (s p : string) :
  GoString.HasPrefix s p = true <-> exists post, s = p +:+ post.
Proof.
  revert s; induction p as [|a p IH]; intros s.
  - split; [intros _; exists s; reflexivity | reflexivity].
  - destruct s as [|c s]; simpl.
    + split; [discriminate | intros [post H]; discriminate].
    + destruct (Ascii.eqb_spec a c) as [->|Hne].
      * rewrite IH. split; intros [post H]; exists post.
        -- now rewrite H.
        -- now inversion H.
      * split; [discriminate|]. intros [post H]. inversion H. congruence.
Qed.

Lemma Index_unfold (s sub : string) :
  GoString.Index s sub
  = if GoString.HasPrefix s sub then Some 0
    else match s with
         | EmptyString => None
         | String _ s' => S <$> GoString.Index s' sub
         end.
Proof. destruct s; reflexivity. Qed.

Lemma from_append (a b : string) : GoString.from (String.length a) (a +:+ b) = b.
Proof. induction a as [|c a IH]; simpl; [now destruct b | exact IH]. Qed.

Lemma Index_Some (s sub : string) (i : nat) :
  GoString.Index s sub = Some i ->
  exists pre post,
    firstSplit s sub pre post /\ String.length pre = i
    /\ GoString.from (i + String.length sub) s = post.
Proof.
  revert i; induction s as [|c s IH]; intros i; rewrite Index_unfold;
    destruct (GoString.HasPrefix _ sub) eqn:E.
  1,3: intros [= <-]; apply HasPrefix_spec in E as [post E];
       exists "", post; repeat split;
       [exact E | intros; simpl; lia | rewrite E; apply from_append].
  - discriminate.
  - destruct (GoString.Index s sub) as [j|] eqn:Ej; [|discriminate].
    intros [= <-]. destruct (IH j eq_refl) as (pre & post & [Hs Hmin] & Hlen & Hfrom).
    exists (String c pre), post. repeat split.
    + rewrite append_cons. now rewrite <- Hs.
    + intros [|c' pre'] post' H.
      * assert (GoString.HasPrefix (String c s) sub = true)
          by (apply HasPrefix_spec; exists post'; exact H).
        congruence.
      * rewrite append_cons in H. inversion H; subst c'. simpl.
        apply le_n_S, (Hmin pre' post'). assumption.
    + simpl. now rewrite Hlen.
    + exact Hfrom.
Qed.

Lemma Index_None (s sub : string) :
  GoString.Index s sub = None -> ~ Contains s sub.
Proof.
  induction s as [|c s IH]; rewrite Index_unfold;
    destruct (GoString.HasPrefix _ sub) eqn:E; try discriminate;
    intros H [[|c' pre] [post Heq]].
  - assert (GoString.HasPrefix "" sub = true)
      by (apply HasPrefix_spec; exists post; exact Heq). congruence.
  - discriminate.
  - assert (GoString.HasPrefix (String c s) sub = true)
      by (apply HasPrefix_spec; exists post; exact Heq). congruence.
  - destruct (GoString.Index s sub) eqn:Ej; [discriminate|].
    apply IH; [reflexivity|]. exists pre, post. rewrite append_cons in Heq.
    now inversion Heq.
Qed.

(** When the version of the host cannot be read, the probe is not sent
    and the error is returned as it is. *)
Lemma getReleaseValues_version_error (TrimSpace : string -> string)
    (client : Interface) (namespace : string) (disableIngressSync : bool)
    (err : error) :
  selectImage client = Err err ->
  getReleaseValues TrimSpace client namespace disableIngressSync = ([], Err err).
Proof. intros H. unfold getReleaseValues. now rewrite H. Qed.



Example getReleaseValues_discovered :
  getReleaseValues asciiTrimSpace hostClient "default" false
  = ([], Ok (raw [ "vcluster:";
                   "  image: rancher/k3s:v1.19.8-k3s1";
                   "  extraArgs:";
                   "    - --service-cidr=10.43.0.0/16";
                   "";
                   "storage:";
                   "  size: 5Gi" ])).
Proof. vm_compute. reflexivity. Qed.

Example TestMapping_pod : SecretNamesFromPod testPod = ["test/a"; "test/b"].
Proof. vm_compute. reflexivity. Qed.

(** * Further properties *)

(** ** [UniqueSlice]: order and fixed points *)

Lemma UniqueSlice_body_out keys out entry :
  UniqueSlice_body (keys, out) entry
  = (fst (UniqueSlice_body (keys, []) entry),
     out ++ snd (UniqueSlice_body (keys, []) entry)).
Proof.
  unfold UniqueSlice_body. case_bool_decide; simpl; [now rewrite app_nil_r|].
  destruct (keys !! entry); simpl; [now rewrite app_nil_r | reflexivity].
Qed.

Lemma UniqueSlice_loop_out l keys out :
  snd (fold_left UniqueSlice_body l (keys, out))
  = out ++ snd (fold_left UniqueSlice_body l (keys, [])).
Proof.
  revert keys out; induction l as [|e l IH]; intros keys out; cbn [fold_left].
  - simpl. now rewrite app_nil_r.
  - rewrite (UniqueSlice_body_out keys out e).
    destruct (UniqueSlice_body (keys, []) e) as [keys' d] eqn:E. cbn [fst snd].
    rewrite (IH keys' (out ++ d)), (IH keys' d). now rewrite app_assoc.
Qed.

Lemma UniqueSlice_loop_seen l keys x :
  is_Some (keys !! x) -> x ∉ snd (fold_left UniqueSlice_body l (keys, [])).
Proof.
  revert keys; induction l as [|e l IH]; intros keys Hx; cbn [fold_left].
  - apply not_elem_of_nil.
  - unfold UniqueSlice_body at 2. case_bool_decide as He; [now apply IH|].
    destruct (keys !! e) eqn:E; [now apply IH|].
    rewrite UniqueSlice_loop_out. simpl app. rewrite elem_of_cons.
    intros [->|Hin].
    + rewrite E in Hx. destruct Hx; discriminate.
    + revert Hin. apply IH. destruct (decide (e = x)) as [->|Hne].
      * rewrite lookup_insert_eq. eauto.
      * now rewrite lookup_insert_ne.
Qed.

Lemma filter_absent (x : string) (l : list string) :
  x ∉ l -> filter (fun y => y <> x) l = l.
Proof.
  induction l as [|y l IH]; intros H; [reflexivity|].
  apply not_elem_of_cons in H as [Hne Hl].
  rewrite filter_cons_True by congruence. now rewrite IH.
Qed.

Lemma UniqueSlice_loop_insert l keys x :
  keys !! x = None ->
  snd (fold_left UniqueSlice_body l (<[x := true]> keys, []))
  = filter (fun y => y <> x) (snd (fold_left UniqueSlice_body l (keys, []))).
Proof.
  revert keys; induction l as [|e l IH]; intros keys Hx; cbn [fold_left];
    [reflexivity|].
  unfold UniqueSlice_body at 2 4. case_bool_decide as He; [now apply IH|].
  destruct (decide (e = x)) as [->|Hne].
  - rewrite lookup_insert_eq, Hx.
    rewrite (UniqueSlice_loop_out l _ ([] ++ [x])). simpl app.
    rewrite filter_cons_False by (intros H; now apply H).
    rewrite filter_absent; [reflexivity|].
    apply UniqueSlice_loop_seen. rewrite lookup_insert_eq. eauto.
  - rewrite lookup_insert_ne by congruence.
    destruct (keys !! e) eqn:E; [now apply IH|].
    rewrite (UniqueSlice_loop_out l _ ([] ++ [e])),
            (UniqueSlice_loop_out l (<[e:=true]> keys) ([] ++ [e])).
    simpl app. rewrite filter_cons_True by exact Hne. f_equal.
    rewrite insert_insert_ne by congruence.
    apply IH. now rewrite lookup_insert_ne.
Qed.

Lemma UniqueSlice_fixed (l : list string) :
  NoDup l -> "" ∉ l -> UniqueSlice l = l.
Proof.
  unfold UniqueSlice. induction 1 as [|x l Hx Hnd IH]; intros Hempty; [reflexivity|].
  apply not_elem_of_cons in Hempty as [Hne Hl]. cbn [fold_left].
  unfold UniqueSlice_body at 2. rewrite bool_decide_eq_false_2 by congruence.
  rewrite lookup_empty. rewrite (UniqueSlice_loop_out l _ ([] ++ [x])). simpl app.
  f_equal.
  rewrite UniqueSlice_loop_insert by apply lookup_empty.
  rewrite (IH Hl). now apply filter_absent.
Qed.

(** X1: the slice [UniqueSlice] returns never holds an entry twice, and
    its entries are exactly the non-empty entries of the argument. *)
Theorem UniqueSlice_entries (stringSlice : list string) :
  NoDup (UniqueSlice stringSlice)
  /\ forall x, x ∈ UniqueSlice stringSlice <-> x ∈ stringSlice /\ x <> "".
Proof. split; [apply UniqueSlice_NoDup | intros x; apply UniqueSlice_elem]. Qed.

(** X2: [UniqueSlice] keeps the first occurrence of an entry and drops the
    later ones: an empty head is skipped, any other head comes first and
    is removed from what the rest of the slice yields. *)
Theorem UniqueSlice_first_occurrence (entry : string) (rest : list string) :
  UniqueSlice (entry :: rest)
  = if bool_decide (entry = "") then UniqueSlice rest
    else entry :: filter (fun y => y <> entry) (UniqueSlice rest).
Proof.
  unfold UniqueSlice. cbn [fold_left]. unfold UniqueSlice_body at 2.
  case_bool_decide as He; [reflexivity|].
  rewrite lookup_empty. rewrite (UniqueSlice_loop_out rest _ ([] ++ [entry])).
  simpl app. f_equal. apply UniqueSlice_loop_insert, lookup_empty.
Qed.

(** X3: [UniqueSlice] is idempotent; a slice without duplicates and
    without empty entries is returned as it is. *)
Theorem UniqueSlice_idempotent (stringSlice : list string) :
  UniqueSlice (UniqueSlice stringSlice) = UniqueSlice stringSlice.
Proof.
  apply UniqueSlice_fixed; [apply UniqueSlice_NoDup|].
  rewrite UniqueSlice_elem. intros [_ H]. now apply H.
Qed.

(** ** Name translation: bounds, collisions, injectivity *)

Lemma append_assoc3 (a b c : string) : (a +:+ b) +:+ c = a +:+ b +:+ c.
Proof. induction a as [|x a IH]; [reflexivity|]. rewrite !append_cons. now rewrite IH. Qed.

Lemma append_cancel_r (a b t : string) : a +:+ t = b +:+ t -> a = b.
Proof.
  revert b; induction a as [|x a IH]; intros [|y b] H.
  - reflexivity.
  - apply (f_equal String.length) in H. rewrite !length_append in H.
    simpl in H. lia.
  - apply (f_equal String.length) in H. rewrite !length_append in H.
    simpl in H. lia.
  - rewrite !append_cons in H. inversion H; subst. f_equal. now apply IH.
Qed.

Lemma Join_physical (name namespace suffix : string) :
  GoString.Join [name; "x"; namespace; "x"; suffix] "-"
  = name +:+ "-x-" +:+ namespace +:+ "-x-" +:+ suffix.
Proof. reflexivity. Qed.

(** X4: whatever the parts are, [SafeConcatName] returns at most 63
    bytes, and it returns the plain dash-join whenever that has at most
    63 bytes. *)
Theorem SafeConcatName_bound (name : list string) :
  String.length (SafeConcatName name) <= 63
  /\ (if Nat.leb (String.length (GoString.Join name "-")) 63
      then SafeConcatName name = GoString.Join name "-"
      else String.length (SafeConcatName name) = 63).
Proof.
  rewrite length_SafeConcatName.
  destruct (Nat.leb_spec (String.length (GoString.Join name "-")) 63) as [H|H].
  - destruct (Nat.ltb_spec 63 (String.length (GoString.Join name "-"))); [lia|].
    split; [exact H | now apply SafeConcatName_short].
  - destruct (Nat.ltb_spec 63 (String.length (GoString.Join name "-"))); [|lia].
    split; [lia | reflexivity].
Qed.

(** X5: [PhysicalName] is not injective: moving a segment [-x-] from the
    name to the namespace gives two different objects the same physical
    name, in the plain and in the hashed regime alike. *)
Theorem PhysicalName_collision (g : Globals) (a b c : string) :
  a +:+ "-x-" +:+ b <> a
  /\ PhysicalName g (a +:+ "-x-" +:+ b) c = PhysicalName g a (b +:+ "-x-" +:+ c).
Proof.
  split.
  - intros H. apply (f_equal String.length) in H.
    rewrite !length_append in H. simpl in H. lia.
  - unfold PhysicalName, SafeConcatName. rewrite !Join_physical.
    now rewrite !append_assoc3.
Qed.

(** X6: inside one namespace, and as long as the joined strings have at
    most 63 bytes, different names get different physical names. *)
Theorem PhysicalName_injective_name (g : Globals) (name1 name2 namespace : string) :
  String.length name1 + String.length namespace + String.length (Suffix g) + 6 <= 63 ->
  String.length name2 + String.length namespace + String.length (Suffix g) + 6 <= 63 ->
  PhysicalName g name1 namespace = PhysicalName g name2 namespace ->
  name1 = name2.
Proof.
  intros H1 H2. unfold PhysicalName.
  rewrite !SafeConcatName_short.
  - rewrite !Join_physical. apply append_cancel_r.
  - rewrite Join_physical, !length_append. simpl. lia.
  - rewrite Join_physical, !length_append. simpl. lia.
Qed.

Lemma PhysicalName_injective_name_witness :
  String.length "db" + String.length "test"
    + String.length (Suffix initial_globals) + 6 <= 63
  /\ PhysicalName initial_globals "db" "test" = PhysicalName initial_globals "db" "test"
  /\ "db" = "db".
Proof.
  split; [simpl; lia|]. split; [reflexivity|].
  apply (PhysicalName_injective_name initial_globals "db" "db" "test");
    [simpl; lia | simpl; lia | reflexivity].
Defined.

(** ** [SetupMetadata], [IsManaged] and [ObjectPhysicalName] together *)



(** X9: the copy depends on the name, the namespace, the annotations and
    the body of the original only: labels, finalizers, owner references
    and the other fields of the original never reach it. *)
Theorem SetupMetadata_frame {B} (g : Globals) (targetNamespace : string)
    (m1 m2 : ObjectMeta) (body : B) :
  Name m1 = Name m2 -> Namespace m1 = Namespace m2 ->
  Annotations m1 = Annotations m2 ->
  SetupMetadata g targetNamespace (WithMeta m1 body)
  = SetupMetadata g targetNamespace (WithMeta m2 body).
Proof.
  intros Hn Hns Ha. unfold SetupMetadata. cbn zeta.
  rewrite !initMetadata_eq, Hn, Hns, Ha. reflexivity.
Qed.

Lemma SetupMetadata_frame_witness :
  SetupMetadata initial_globals "host"
    (WithMeta (SetLabels (SetName emptyObjectMeta "db") (Some {[ "app" := "web" ]})) tt)
  = SetupMetadata initial_globals "host" (WithMeta (SetName emptyObjectMeta "db") tt).
Proof.
  apply (SetupMetadata_frame initial_globals "host"
           (SetLabels (SetName emptyObjectMeta "db") (Some {[ "app" := "web" ]}))
           (SetName emptyObjectMeta "db") tt); reflexivity.
Defined.

(** ** [SetExcept] and [EqualExcept] *)

Lemma exists_spec (a : list string) (k : string) : exists_ a k = true <-> k ∈ a.
Proof.
  induction a as [|i a IH]; simpl.
  - split; [discriminate | intros H; inversion H].
  - rewrite elem_of_cons. case_bool_decide as E.
    + split; auto.
    + rewrite IH. split; [auto|]. intros [->|H]; [congruence | exact H].
Qed.

Lemma exists_false (a : list string) (k : string) : exists_ a k = false <-> k ∉ a.
Proof.
  rewrite <- exists_spec. destruct (exists_ a k); split; congruence.
Qed.

Lemma SetExcept_from_loop (except : list string) (from : gmap string string) (k : string) :
  map_fold (fun k v (retMap : gmap string string) =>
              if exists_ except k then retMap else <[k := v]> retMap) ∅ from !! k
  = if exists_ except k then None else from !! k.
Proof.
  revert k. apply (map_fold_weak_ind
    (fun (r : gmap string string) (m : gmap string string) =>
       forall k, r !! k = if exists_ except k then None else m !! k)).
  - intros k. rewrite lookup_empty. now destruct (exists_ except k).
  - intros i x m r Hi IH k. destruct (exists_ except i) eqn:Ei.
    + rewrite IH. destruct (exists_ except k) eqn:Ek; [reflexivity|].
      rewrite lookup_insert_ne by congruence. reflexivity.
    + destruct (decide (i = k)) as [->|Hne].
      * now rewrite !lookup_insert_eq, Ei.
      * rewrite !lookup_insert_ne by exact Hne. apply IH.
Qed.

Lemma SetExcept_to_loop (to : gmap string string) (except : list string)
    (retMap : gmap string string) (k : string) :
  fold_left (fun (retMap : gmap string string) k =>
               if bool_decide (default "" (to !! k) ≠ "")
               then <[k := default "" (to !! k)]> retMap else retMap)
            except retMap !! k
  = if exists_ except k && bool_decide (default "" (to !! k) ≠ "")
    then Some (default "" (to !! k)) else retMap !! k.
Proof.
  revert retMap; induction except as [|e except IH]; intros retMap; [reflexivity|].
  cbn [fold_left exists_]. rewrite IH. clear IH.
  destruct (decide (e = k)) as [->|Hne].
  - rewrite (bool_decide_eq_true_2 (k = k)) by reflexivity.
    destruct (bool_decide (default "" (to !! k) ≠ "")) eqn:E2.
    + destruct (exists_ except k); cbn [andb]; [reflexivity | apply lookup_insert_eq].
    + rewrite !andb_false_r. reflexivity.
  - rewrite (bool_decide_eq_false_2 (e = k)) by exact Hne.
    destruct (exists_ except k && bool_decide (default "" (to !! k) ≠ ""));
      [reflexivity|].
    destruct (bool_decide (default "" (to !! e) ≠ ""));
      [apply lookup_insert_ne; exact Hne | reflexivity].
Qed.

Lemma SetExcept_key (from to : option (gmap string string))
    (except : list string) (k : string) :
  lookupNil (SetExcept from to except) k
  = if exists_ except k
    then (if bool_decide (mapIndex to k ≠ "") then Some (mapIndex to k) else None)
    else lookupNil from k.
Proof.
  unfold SetExcept. cbn zeta.
  match goal with |- lookupNil (if Nat.eqb (size ?R) 0 then _ else _) _ = _ =>
    set (retMap := R) end.
  assert (HR : lookupNil (if Nat.eqb (size retMap) 0 then None else Some retMap) k
               = retMap !! k).
  { destruct (Nat.eqb_spec (size retMap) 0) as [H|H]; [|reflexivity].
    apply map_size_empty_inv in H. rewrite H. now rewrite lookup_empty. }
  rewrite HR. unfold retMap. clear HR retMap.
  assert (H1 : match from with
               | Some from =>
                   map_fold (fun k v (retMap : gmap string string) =>
                               if exists_ except k then retMap else <[k := v]> retMap)
                            ∅ from
               | None => ∅
               end !! k = if exists_ except k then None else lookupNil from k).
  { destruct from as [from|]; simpl.
    - apply SetExcept_from_loop.
    - rewrite lookup_empty. now destruct (exists_ except k). }
  destruct to as [to|]; simpl.
  - rewrite SetExcept_to_loop, H1.
    destruct (exists_ except k); simpl; [|reflexivity].
    now case_bool_decide.
  - rewrite H1. destruct (exists_ except k); reflexivity.
Qed.

(** X10: in the map [SetExcept] returns, an excepted key holds the value
    [to] has for it when that value is not the empty string and is absent
    otherwise; every other key is as in [from]. *)
Theorem SetExcept_lookup (from to : option (gmap string string))
    (except : list string) (k : string) :
  lookupNil (SetExcept from to except) k
  = if exists_ except k
    then (if bool_decide (mapIndex to k ≠ "") then Some (mapIndex to k) else None)
    else lookupNil from k.
Proof. apply SetExcept_key. Qed.

(** X11: [SetExcept] never returns an allocated empty map: a result
    without entries is nil. *)
Theorem SetExcept_never_empty (from to : option (gmap string string))
    (except : list string) :
  SetExcept from to except <> Some ∅.
Proof.
  unfold SetExcept. cbn zeta.
  match goal with |- (if Nat.eqb (size ?R) 0 then _ else _) <> _ =>
    set (retMap := R) end.
  destruct (Nat.eqb_spec (size retMap) 0) as [H|H]; [discriminate|].
  intros [= E]. apply H. rewrite E. apply map_size_empty.
Qed.

Lemma entriesMatch_spec (a b : option (gmap string string)) (except : list string) :
  entriesMatch a b except = true
  <-> forall k v, lookupNil a k = Some v -> k ∉ except ->
                  b <> None /\ mapIndex b k = v.
Proof.
  destruct a as [a|]; simpl; [|split; [intros _ k v H; discriminate | reflexivity]].
  apply (map_fold_weak_ind
    (fun (r : bool) (m : gmap string string) =>
       r = true <-> forall k v, m !! k = Some v -> k ∉ except ->
                                b <> None /\ mapIndex b k = v)).
  - split; [|reflexivity]. intros _ k v H. rewrite lookup_empty in H. discriminate.
  - intros i x m r Hi IH. rewrite andb_true_iff, IH. split.
    + intros [Hm Hi'] k v Hk Hnot. destruct (decide (i = k)) as [->|Hne].
      * rewrite lookup_insert_eq in Hk. injection Hk as ->.
        apply exists_false in Hnot. rewrite Hnot in Hi'. simpl in Hi'.
        destruct b as [b|]; [|discriminate].
        apply bool_decide_eq_true in Hi'. split; [discriminate | exact Hi'].
      * rewrite lookup_insert_ne in Hk by exact Hne. now apply Hm.
    + intros H. split.
      * intros k v Hk Hnot. apply H; [|exact Hnot].
        rewrite lookup_insert_ne; [exact Hk | congruence].
      * destruct (exists_ except i) eqn:Ei; [reflexivity|]. simpl.
        apply exists_false in Ei.
        destruct (H i x (lookup_insert_eq _ _ _) Ei) as [Hb Hv].
        destruct b as [b|]; [|congruence]. now apply bool_decide_eq_true.
Qed.

(** X12: on two allocated maps [EqualExcept] compares what reading the
    maps yields outside the excepted keys; a key that is missing counts as
    one that holds the empty string. *)
Theorem EqualExcept_allocated (a b : gmap string string) (except : list string) :
  EqualExcept (Some a) (Some b) except = true
  <-> forall k, k ∉ except -> default "" (a !! k) = default "" (b !! k).
Proof.
  unfold EqualExcept. rewrite andb_true_iff, !entriesMatch_spec. simpl. split.
  - intros [Hab Hba] k Hk.
    destruct (a !! k) as [v|] eqn:Ea.
    + destruct (Hab k v Ea Hk) as [_ H]. now rewrite H.
    + destruct (b !! k) as [w|] eqn:Eb; [|reflexivity].
      destruct (Hba k w Eb Hk) as [_ H]. rewrite Ea in H. exact H.
  - intros H. split; intros k v Hk Hnot; (split; [discriminate|]).
    + rewrite <- (H k Hnot), Hk. reflexivity.
    + rewrite (H k Hnot), Hk. reflexivity.
Qed.

(** X13: a nil map equals another map, in either argument order, exactly
    when every key of the other map is excepted. *)
Theorem EqualExcept_nil (b : option (gmap string string)) (except : list string) :
  (EqualExcept None b except = true
   <-> forall k, is_Some (lookupNil b k) -> k ∈ except)
  /\ (EqualExcept b None except = true
      <-> forall k, is_Some (lookupNil b k) -> k ∈ except).
Proof.
  assert (H : entriesMatch b None except = true
              <-> forall k, is_Some (lookupNil b k) -> k ∈ except).
  { rewrite entriesMatch_spec. split.
    - intros H k [v Hk]. destruct (decide (k ∈ except)) as [|Hnot]; [assumption|].
      destruct (H k v Hk Hnot) as [Hb _]. congruence.
    - intros H k v Hk Hnot. exfalso. apply Hnot, H. eauto. }
  unfold EqualExcept. cbn [entriesMatch]. rewrite andb_true_r. cbn [andb].
  split; exact H.
Qed.

(** X14: what [SetExcept from to except] returns equals [from] in the
    sense of [EqualExcept] with the same excepted keys. *)
Theorem EqualExcept_SetExcept (from to : option (gmap string string))
    (except : list string) :
  EqualExcept (SetExcept from to except) from except = true.
Proof.
  unfold EqualExcept. rewrite andb_true_iff, !entriesMatch_spec. split.
  - intros k v Hk Hnot. rewrite SetExcept_key in Hk.
    apply exists_false in Hnot. rewrite Hnot in Hk.
    destruct from as [from|]; [|discriminate]. simpl in *.
    split; [discriminate | now rewrite Hk].
  - intros k v Hk Hnot.
    assert (H : lookupNil (SetExcept from to except) k = Some v).
    { rewrite SetExcept_key. apply exists_false in Hnot. now rewrite Hnot. }
    destruct (SetExcept from to except) as [m|]; [|discriminate]. simpl in *.
    split; [discriminate | now rewrite H].
Qed.

(** X15: [EqualExcept] is reflexive and symmetric. *)
Theorem EqualExcept_refl_sym (a b : option (gmap string string)) (except : list string) :
  EqualExcept a a except = true
  /\ EqualExcept a b except = EqualExcept b a except.
Proof.
  split; [|apply andb_comm].
  unfold EqualExcept. rewrite andb_diag, entriesMatch_spec.
  intros k v Hk _. destruct a as [a|]; [|discriminate]. simpl in *.
  split; [discriminate | now rewrite Hk].
Qed.

(** ** [Split] *)

Lemma substring_prefix (a b : string) : substring 0 (String.length a) (a +:+ b) = a.
Proof.
  induction a as [|c a IH]; [now destruct b|].
  rewrite append_cons. simpl. now rewrite IH.
Qed.

Lemma from_add (a b : string) (n : nat) :
  GoString.from (String.length a + n) (a +:+ b) = GoString.from n b.
Proof. induction a as [|c a IH]; [reflexivity|]. rewrite append_cons. exact IH. Qed.

Lemma Index_firstSplit (s sub pre post : string) :
  firstSplit s sub pre post -> GoString.Index s sub = Some (String.length pre).
Proof.
  intros [Hs Hmin]. destruct (GoString.Index s sub) as [i|] eqn:E.
  - apply Index_Some in E as (pre' & post' & [Hs' Hmin'] & Hlen & _).
    f_equal. specialize (Hmin pre' post' Hs'). specialize (Hmin' pre post Hs). lia.
  - apply Index_None in E. exfalso. apply E. now exists pre, post.
Qed.

Lemma Split_firstSplit (TrimSpace : string -> string) (s sep pre post : string) :
  sep <> "" -> firstSplit s sep pre post ->
  Split TrimSpace s sep = Some (TrimSpace pre, TrimSpace post).
Proof.
  intros Hsep Hfirst. unfold Split, SplitN2.
  rewrite bool_decide_eq_false_2 by exact Hsep.
  rewrite (Index_firstSplit _ _ _ _ Hfirst). destruct Hfirst as [Hs _].
  unfold GoString.slice, safeIndex. cbn [length Nat.leb nth].
  rewrite Nat.sub_0_r. subst s. rewrite substring_prefix.
  rewrite from_add. now rewrite from_append.
Qed.

(** X16: with a separator that is not empty, [Split] cuts at the first
    occurrence of the separator and trims both sides; when the separator
    does not occur, the first component is the trimmed string and the
    second is the trimmed empty string. *)
Theorem Split_spec (TrimSpace : string -> string) (s sep : string) :
  sep <> "" ->
  (Contains s sep ->
   exists pre post,
     firstSplit s sep pre post
     /\ Split TrimSpace s sep = Some (TrimSpace pre, TrimSpace post))
  /\ (~ Contains s sep -> Split TrimSpace s sep = Some (TrimSpace s, TrimSpace "")).
Proof.
  intros Hsep. destruct (GoString.Index s sep) as [i|] eqn:E.
  - apply Index_Some in E as (pre & post & Hfirst & _). split.
    + intros _. exists pre, post. split; [exact Hfirst|].
      now apply Split_firstSplit.
    + intros Hnot. exfalso. apply Hnot. exists pre, post. apply Hfirst.
  - split.
    + intros Hc. apply Index_None in E. contradiction.
    + intros _. unfold Split, SplitN2.
      rewrite bool_decide_eq_false_2 by exact Hsep. now rewrite E.
Qed.

Lemma Split_spec_witness :
  "/" <> ""
  /\ Split asciiTrimSpace "test" "/" = Some (asciiTrimSpace "test", asciiTrimSpace "").
Proof.
  split; [discriminate|].
  apply (proj2 (Split_spec asciiTrimSpace "test" "/" ltac:(discriminate))).
  apply Index_None. reflexivity.
Defined.

Lemma append_overlap (a b x y : string) :
  a +:+ x = b +:+ y -> String.length b < String.length a ->
  exists c mid, a = b +:+ String c mid /\ y = String c (mid +:+ x).
Proof.
  revert a; induction b as [|d b IH]; intros [|c a] H Hlen; simpl in Hlen; try lia.
  - exists c, a. split; [reflexivity|]. symmetry. exact H.
  - rewrite !append_cons in H. inversion H; subst d.
    destruct (IH a) as (c' & mid & -> & ->); [assumption | lia|].
    exists c', mid. split; reflexivity.
Qed.

(** X17: a key [namespace/name] is split back into its two parts, each
    trimmed, provided the namespace holds no slash; a slash in the name
    does no harm. *)
Theorem Split_key (TrimSpace : string -> string) (namespace name : string) :
  GoString.Index namespace "/" = None ->
  Split TrimSpace (namespace +:+ "/" +:+ name) "/"
  = Some (TrimSpace namespace, TrimSpace name).
Proof.
  intros Hns. apply Index_None in Hns.
  apply Split_firstSplit; [discriminate|]. split; [reflexivity|].
  intros pre' post' H.
  destruct (Nat.le_gt_cases (String.length namespace) (String.length pre'))
    as [Hle|Hlt]; [exact Hle|].
  exfalso. apply Hns.
  destruct (append_overlap _ _ _ _ H Hlt) as (c & mid & -> & Hy).
  rewrite append_cons in Hy. inversion Hy; subst c.
  exists pre', mid. reflexivity.
Qed.

Lemma Split_key_witness :
  GoString.Index "test" "/" = None
  /\ Split asciiTrimSpace ("test" +:+ "/" +:+ "a") "/"
     = Some (asciiTrimSpace "test", asciiTrimSpace "a").
Proof.
  split; [reflexivity|].
  apply (Split_key asciiTrimSpace "test" "a"). reflexivity.
Defined.

(** ** References of a pod: what is extracted and what is not *)

Section Extract.
Variables (ofEnv : EnvVar -> option string)
          (ofEnvFrom : EnvFromSource -> option string)
          (stepEnv : string -> list string -> EnvVar -> list string)
          (stepEnvFrom : string -> list string -> EnvFromSource -> list string).
Hypothesis stepEnv_eq : forall namespace acc e,
  stepEnv namespace acc e = acc ++ refEntry namespace (ofEnv e).
Hypothesis stepEnvFrom_eq : forall namespace acc f,
  stepEnvFrom namespace acc f = acc ++ refEntry namespace (ofEnvFrom f).

Lemma containerLoops namespace env envFrom :
  fold_left (stepEnvFrom namespace) envFrom (fold_left (stepEnv namespace) env [])
  = flat_map (fun e => refEntry namespace (ofEnv e)) env
    ++ flat_map (fun f => refEntry namespace (ofEnvFrom f)) envFrom.
Proof.
  rewrite (fold_left_step _ envFrom)
    by (intros acc f; now rewrite (stepEnvFrom_eq _ acc), (stepEnvFrom_eq _ [])).
  rewrite (fold_left_step _ env)
    by (intros acc e; now rewrite (stepEnv_eq _ acc), (stepEnv_eq _ [])).
  simpl. f_equal; apply flat_map_ext; intros a.
  - now rewrite stepEnv_eq.
  - now rewrite stepEnvFrom_eq.
Qed.

Lemma refEntry_In namespace ref x :
  In x (refEntry namespace ref)
  <-> exists name, ref = Some name /\ name <> "" /\ x = namespace +:+ "/" +:+ name.
Proof.
  destruct ref as [name|]; simpl.
  - case_bool_decide as Hn; simpl.
    + split.
      * intros [<-|[]]. eauto.
      * intros (n & [= <-] & _ & ->). now left.
    + split; [intros [] | intros (n & [= <-] & Hne & _); contradiction].
  - split; [intros [] | intros (n & H & _); discriminate].
Qed.

Lemma containerLoops_In namespace env envFrom x :
  In x (fold_left (stepEnvFrom namespace) envFrom
                  (fold_left (stepEnv namespace) env []))
  <-> exists name, name <> "" /\ x = namespace +:+ "/" +:+ name
                   /\ envNames ofEnv ofEnvFrom env envFrom name.
Proof.
  rewrite containerLoops, in_app_iff, !in_flat_map. unfold envNames. split.
  - intros [(e & He & H)|(f & Hf & H)];
      apply refEntry_In in H as (name & Href & Hne & ->); exists name; eauto 8.
  - intros (name & Hne & -> & [(e & He & H)|(f & Hf & H)]).
    + left. exists e. split; [exact He|]. apply refEntry_In. eauto.
    + right. exists f. split; [exact Hf|]. apply refEntry_In. eauto.
Qed.
End Extract.

Lemma secretFromEnv_refEntry namespace acc e :
  secretFromEnv namespace acc e = acc ++ refEntry namespace (envSecretRef e).
Proof.
  rewrite secretFromEnv_append, secretFromEnv_ref. reflexivity.
Qed.

Lemma secretFromEnvFrom_refEntry namespace acc f :
  secretFromEnvFrom namespace acc f = acc ++ refEntry namespace (envFromSecretRef f).
Proof.
  rewrite secretFromEnvFrom_append, secretFromEnvFrom_ref. reflexivity.
Qed.

Lemma configFromEnv_refEntry namespace acc e :
  configFromEnv namespace acc e = acc ++ refEntry namespace (envConfigRef e).
Proof.
  unfold configFromEnv, envConfigRef, refEntry.
  destruct (ValueFrom e) as [vf|]; [|now rewrite app_nil_r].
  destruct (ConfigMapKeyRef vf) as [r|]; simpl; [|now rewrite app_nil_r].
  case_bool_decide; [reflexivity | now rewrite app_nil_r].
Qed.

Lemma configFromEnvFrom_refEntry namespace acc f :
  configFromEnvFrom namespace acc f = acc ++ refEntry namespace (envFromConfigRef f).
Proof.
  unfold configFromEnvFrom, envFromConfigRef, refEntry.
  destruct (ConfigMapRef f) as [r|]; simpl; [|now rewrite app_nil_r].
  case_bool_decide; [reflexivity | now rewrite app_nil_r].
Qed.

Lemma qualified_nonempty (namespace name : string) : namespace +:+ "/" +:+ name <> "".
Proof.
  intros H. apply (f_equal String.length) in H. rewrite !length_append in H.
  simpl in H. lia.
Qed.

Lemma qualified_inj (namespace name1 name2 : string) :
  namespace +:+ "/" +:+ name1 = namespace +:+ "/" +:+ name2 -> name1 = name2.
Proof. intros H. apply String.app_inj in H. now apply String.app_inj in H. Qed.

(** X18: [SecretNamesFromPod] returns, without duplicates, exactly the keys
    [namespace/name] of the secrets the pod references: the non-empty
    names of [secretKeyRef] and [secretRef] in main, init and ephemeral
    containers, and every name among the image pull secrets and the
    secret volumes. *)
Theorem SecretNamesFromPod_exact (pod : Pod) :
  NoDup (SecretNamesFromPod pod)
  /\ (forall x, x ∈ SecretNamesFromPod pod ->
                exists name, x = Namespace (pod_ObjectMeta pod) +:+ "/" +:+ name)
  /\ forall name,
       Namespace (pod_ObjectMeta pod) +:+ "/" +:+ name ∈ SecretNamesFromPod pod
       <-> secretReferenced pod name.
Proof.
  split; [apply SecretNamesFromPod_NoDup|].
  split; [apply SecretNamesFromPod_qualified|]. intros name.
  rewrite SecretNamesFromPod_eq, UniqueSlice_elem, list_elem_of_In.
  set (ns := Namespace (pod_ObjectMeta pod)).
  unfold secretEntries. cbn zeta. fold ns.
  rewrite !in_app_iff, !in_flat_map, in_map_iff.
  unfold secretReferenced, containersName, volumeSecretRef. split.
  - intros [[(c & Hc & H)|[(c & Hc & H)|[(c & Hc & H)|[(r & H & Hr)|(v & Hv & H)]]]] _].
    + apply (containerLoops_In _ _ _ _ secretFromEnv_refEntry secretFromEnvFrom_refEntry)
        in H as (n & Hne & Heq & Hn).
      apply qualified_inj in Heq as ->. left. split; [exact Hne|]. left. eauto.
    + apply (containerLoops_In _ _ _ _ secretFromEnv_refEntry secretFromEnvFrom_refEntry)
        in H as (n & Hne & Heq & Hn).
      apply qualified_inj in Heq as ->. left. split; [exact Hne|]. right. left. eauto.
    + apply (containerLoops_In _ _ _ _ secretFromEnv_refEntry secretFromEnvFrom_refEntry)
        in H as (n & Hne & Heq & Hn).
      apply qualified_inj in Heq as ->. left. split; [exact Hne|]. right. right. eauto.
    + apply qualified_inj in H. right. left. eauto.
    + right. right. exists v. split; [exact Hv|].
      destruct (Secret v) as [src|]; [|destruct H]. destruct H as [H|[]].
      apply qualified_inj in H. simpl. now rewrite H.
  - intros H. split; [|apply qualified_nonempty].
    destruct H as [[Hne [(c & Hc & H)|[(c & Hc & H)|(c & Hc & H)]]]
                  |[(r & Hr & <-)|(v & Hv & H)]].
    + left. exists c. split; [exact Hc|].
      apply (containerLoops_In _ _ _ _ secretFromEnv_refEntry secretFromEnvFrom_refEntry).
      eauto.
    + right. left. exists c. split; [exact Hc|].
      apply (containerLoops_In _ _ _ _ secretFromEnv_refEntry secretFromEnvFrom_refEntry).
      eauto.
    + right. right. left. exists c. split; [exact Hc|].
      apply (containerLoops_In _ _ _ _ secretFromEnv_refEntry secretFromEnvFrom_refEntry).
      eauto.
    + right. right. right. left. eauto.
    + right. right. right. right. exists v. split; [exact Hv|].
      destruct (Secret v) as [src|]; [|discriminate]. simpl in H.
      injection H as <-. now left.
Qed.

Lemma ConfigNamesFromPod_eq (pod : Pod) :
  ConfigNamesFromPod pod = UniqueSlice (configEntries pod).
Proof.
  unfold ConfigNamesFromPod, configEntries. cbn zeta. f_equal.
  rewrite (fold_left_step _ (Volumes (Spec pod))).
  2:{ intros acc x. destruct (ConfigMap x); [reflexivity | now rewrite app_nil_r]. }
  rewrite !fold_left_append. simpl app.
  rewrite <- !app_assoc. repeat f_equal.
Qed.

(** X19: [ConfigNamesFromPod] returns, without duplicates, exactly the
    keys [namespace/name] of the config maps the pod references: the
    non-empty names of [configMapKeyRef] and [configMapRef] in main, init
    and ephemeral containers, and every name among the config map
    volumes. *)
Theorem ConfigNamesFromPod_exact (pod : Pod) :
  NoDup (ConfigNamesFromPod pod)
  /\ (forall x, x ∈ ConfigNamesFromPod pod ->
                exists name, x = Namespace (pod_ObjectMeta pod) +:+ "/" +:+ name)
  /\ forall name,
       Namespace (pod_ObjectMeta pod) +:+ "/" +:+ name ∈ ConfigNamesFromPod pod
       <-> configReferenced pod name.
Proof.
  rewrite ConfigNamesFromPod_eq. split; [apply UniqueSlice_NoDup|].
  set (ns := Namespace (pod_ObjectMeta pod)).
  assert (Hin : forall x, In x (configEntries pod) <->
            exists name, x = ns +:+ "/" +:+ name /\ configReferenced pod name).
  { intros x. unfold configEntries. cbn zeta. fold ns.
    rewrite !in_app_iff, !in_flat_map.
    unfold configReferenced, containersName, volumeConfigRef. split.
    - intros [(c & Hc & H)|[(c & Hc & H)|[(c & Hc & H)|(v & Hv & H)]]].
      + apply (containerLoops_In _ _ _ _ configFromEnv_refEntry configFromEnvFrom_refEntry)
          in H as (n & Hne & -> & Hn).
        exists n. split; [reflexivity|]. left. split; [exact Hne|]. left. eauto.
      + apply (containerLoops_In _ _ _ _ configFromEnv_refEntry configFromEnvFrom_refEntry)
          in H as (n & Hne & -> & Hn).
        exists n. split; [reflexivity|]. left. split; [exact Hne|]. right. left. eauto.
      + apply (containerLoops_In _ _ _ _ configFromEnv_refEntry configFromEnvFrom_refEntry)
          in H as (n & Hne & -> & Hn).
        exists n. split; [reflexivity|]. left. split; [exact Hne|]. right. right. eauto.
      + destruct (ConfigMap v) as [src|] eqn:E; [|destruct H]. destruct H as [<-|[]].
        exists (cmv_Name src). split; [reflexivity|]. right. exists v.
        split; [exact Hv|]. now rewrite E.
    - intros (name & -> & [[Hne [(c & Hc & H)|[(c & Hc & H)|(c & Hc & H)]]]
                          |(v & Hv & H)]).
      + left. exists c. split; [exact Hc|].
        apply (containerLoops_In _ _ _ _ configFromEnv_refEntry configFromEnvFrom_refEntry).
        eauto.
      + right. left. exists c. split; [exact Hc|].
        apply (containerLoops_In _ _ _ _ configFromEnv_refEntry configFromEnvFrom_refEntry).
        eauto.
      + right. right. left. exists c. split; [exact Hc|].
        apply (containerLoops_In _ _ _ _ configFromEnv_refEntry configFromEnvFrom_refEntry).
        eauto.
      + right. right. right. exists v. split; [exact Hv|].
        destruct (ConfigMap v) as [src|]; [|discriminate]. simpl in H.
        injection H as <-. now left. }
  split.
  - intros x. rewrite UniqueSlice_elem, list_elem_of_In, Hin.
    intros [(name & -> & _) _]. eauto.
  - intros name. rewrite UniqueSlice_elem, list_elem_of_In, Hin. split.
    + intros [(n & Heq & H) _]. apply qualified_inj in Heq as ->. exact H.
    + intros H. split; [eauto | apply qualified_nonempty].
Qed.

(** ** Choosing the image *)

(** X20: when [selectImage] succeeds, the version string it returns is a
    key of [VersionMap] and the image is the value stored under it, also
    when it fell back to 1.20 or 1.16; it fails exactly with the error of
    reading the server version or of parsing the minor version. *)
Theorem selectImage_VersionMap (client : Interface) :
  match selectImage client with
  | Ok (log, image, serverVersionString) =>
      VersionMap !! serverVersionString = Some image
  | Err err =>
      Discovery_ServerVersion client = Err err
      \/ exists serverVersion,
           Discovery_ServerVersion client = Ok serverVersion
           /\ strconv.Atoi (replaceRegEx_strip (Minor serverVersion)) = Err err
  end.
Proof.
  unfold selectImage. destruct (Discovery_ServerVersion client) as [v|e]; [|now left].
  destruct (strconv.Atoi (replaceRegEx_strip (Minor v))) as [n|e] eqn:E; [|eauto].
  destruct (VersionMap !! _) as [image|] eqn:Ev; [exact Ev|].
  destruct (20 <? n)%Z; vm_compute; reflexivity.
Qed.

(** ** Labels rebuilt with [SetExcept] stay managed *)

(** X21: with a non-empty [Suffix], replacing the labels of a managed
    object by [SetExcept from labels [MarkerLabel]], for any map [from],
    leaves the object managed. *)
Theorem SetExcept_keeps_managed {B} (g : Globals) (from : option (gmap string string))
    (m : ObjectMeta) (body : B) :
  Suffix g <> "" ->
  IsManaged g (WithMeta m body) = true ->
  IsManaged g (WithMeta (SetLabels m (SetExcept from (Labels m) [MarkerLabel g])) body)
  = true.
Proof.
  intros Hs H. apply IsManaged_true in H as (m0 & b0 & labels & Heq & HL & Hv).
  inversion Heq; subst m0 b0. clear Heq.
  pose proof (SetExcept_key from (Labels m) [MarkerLabel g] (MarkerLabel g)) as Hk.
  cbn [exists_] in Hk. rewrite bool_decide_eq_true_2 in Hk by reflexivity.
  rewrite HL in Hk. cbn [mapIndex] in Hk. rewrite Hv in Hk.
  rewrite bool_decide_eq_true_2 in Hk by exact Hs.
  apply IsManaged_true. rewrite HL.
  destruct (SetExcept from (Some labels) [MarkerLabel g]) as [r|] eqn:E;
    [|discriminate].
  exists (SetLabels m (Some r)), body, r. cbn [lookupNil] in Hk.
  repeat split. now rewrite Hk.
Qed.

Lemma SetExcept_keeps_managed_witness :
  Suffix initial_globals <> ""
  /\ IsManaged initial_globals
       (WithMeta (SetLabels emptyObjectMeta
                    (SetExcept (Some {[ "app" := "web" ]})
                               (Some {[ "vcluster.loft.sh/managed-by" := "suffix" ]})
                               [ "vcluster.loft.sh/managed-by" ])) tt) = true.
Proof.
  split; [discriminate|].
  apply (SetExcept_keeps_managed initial_globals (Some {[ "app" := "web" ]})
           (SetLabels emptyObjectMeta
              (Some {[ "vcluster.loft.sh/managed-by" := "suffix" ]})) tt).
  - discriminate.
  - vm_compute. reflexivity.
Defined.
